(** * crawlee utils: [htmlToText] and [extractUrlsFromCheerio]

    A shallow embedding of [packages/utils/src/internals/cheerio.ts].

    JavaScript strings are sequences of UTF-16 code units; they are
    modelled as [list N].  The parsed document is the tree that cheerio
    hands to the code (domhandler nodes); the cheerio handle [$] is a
    query function from selectors to the matched nodes, together with the
    document node returned by [$.root()]; it is written [dollar] below. *)

From Stdlib Require Import String Ascii NArith Bool List Lia.
From stdpp Require Import base option list gmap.

Import ListNotations.
Local Open Scope N_scope.
Local Open Scope list_scope.
Local Open Scope bool_scope.

(** ** JavaScript strings *)

Module JS.

Definition jsstring : Type := list N.

(** ASCII literals. *)
Definition js (s : string) : jsstring :=
  map N_of_ascii (list_ascii_of_string s).

Definition TAB : N := 9.
Definition LF : N := 10.
Definition SPACE : N := 32.

Definition streq (a b : jsstring) : bool := bool_decide (a = b).

(** The class [\s] of ECMAScript regular expressions, which is also the
    set of code units removed by [String.prototype.trim]: WhiteSpace and
    LineTerminator. *)
Definition is_space (c : N) : bool :=
  ((9 <=? c) && (c <=? 13))
  || (c =? 32) || (c =? 160) || (c =? 5760)
  || ((8192 <=? c) && (c <=? 8202))
  || (c =? 8232) || (c =? 8233) || (c =? 8239) || (c =? 8287)
  || (c =? 12288) || (c =? 65279).

(** [s.startsWith(' ')] *)
Definition startsWith_space (s : jsstring) : bool :=
  match s with
  | c :: _ => c =? SPACE
  | [] => false
  end.

(** [s.substring(1)] *)
Definition substring1 (s : jsstring) : jsstring := tl s.

Fixpoint last_unit (s : jsstring) : option N :=
  match s with
  | [] => None
  | [c] => Some c
  | _ :: s' => last_unit s'
  end.

(** [/(^|\s)$/.test(s)]: empty, or the last code unit is whitespace. *)
Definition empty_or_ends_space (s : jsstring) : bool :=
  match last_unit s with
  | None => true
  | Some c => is_space c
  end.

(** [/(^|\n)$/.test(s)] *)
Definition empty_or_ends_LF (s : jsstring) : bool :=
  match last_unit s with
  | None => true
  | Some c => c =? LF
  end.

(** [s.endsWith('\n')] *)
Definition endsWith_LF (s : jsstring) : bool :=
  match last_unit s with
  | None => false
  | Some c => c =? LF
  end.

(** [s.replace(/\s+/g, ' ')]: every maximal run of whitespace becomes one
    space.  [in_run] tells that the previous code unit was whitespace and
    has already been replaced. *)
Fixpoint replace_ws (in_run : bool) (s : jsstring) : jsstring :=
  match s with
  | [] => []
  | c :: s' =>
      if is_space c
      then (if in_run then replace_ws true s' else SPACE :: replace_ws true s')
      else c :: replace_ws false s'
  end.

Definition collapse (s : jsstring) : jsstring := replace_ws false s.

Fixpoint trimStart (s : jsstring) : jsstring :=
  match s with
  | c :: s' => if is_space c then trimStart s' else s
  | [] => []
  end.

Definition trimEnd (s : jsstring) : jsstring := rev (trimStart (rev s)).

(** [s.trim()] *)
Definition trim (s : jsstring) : jsstring := trimEnd (trimStart s).

(** ASCII lower-casing; this is how the [i] flag (without [u]) compares a
    code unit with an ASCII letter of the pattern. *)
Definition lower (c : N) : N :=
  if (65 <=? c) && (c <=? 90) then c + 32 else c.

Definition toLower (s : jsstring) : jsstring := map lower s.

(** [needle] occurs in [s] as a contiguous substring. *)
Definition infix (needle s : jsstring) : Prop :=
  exists pre post, s = pre ++ needle ++ post.

Fixpoint starts_with (needle s : jsstring) : bool :=
  match needle, s with
  | [], _ => true
  | a :: needle', b :: s' => (a =? b) && starts_with needle' s'
  | _ :: _, [] => false
  end.

(** [s.includes(needle)] *)
Fixpoint includes (needle s : jsstring) : bool :=
  starts_with needle s ||
  match s with
  | [] => false
  | _ :: s' => includes needle s'
  end.

End JS.
Import JS.

(** ** The document tree (domhandler nodes) *)

#[warnings="-register-all"]
Inductive Node : Type :=
| Text (data : jsstring)
| Comment (data : jsstring)
| Directive (name data : jsstring)
| CData (children : list Node)
| Document (children : list Node)
| Element (tagName : jsstring) (attribs : gmap jsstring jsstring)
          (children : list Node).

(** The cheerio handle: [$(selector)] gives the matched nodes in document
    order, [$.root()] the document node. *)
Record CheerioAPI : Type := {
  select : jsstring -> list Node;
  root : Node
}.

(** ** Tag classification *)

(** [/^(script|style|canvas|svg|noscript)$/i] *)
Definition SKIP_TAGS : list jsstring :=
  map js ["script"; "style"; "canvas"; "svg"; "noscript"]%string.

Definition SKIP_TAGS_REGEX (tagName : jsstring) : bool :=
  existsb (streq (toLower tagName)) SKIP_TAGS.

(** [/^(p|h1|...|option)$/i] *)
Definition BLOCK_TAGS : list jsstring :=
  map js ["p"; "h1"; "h2"; "h3"; "h4"; "h5"; "h6"; "ol"; "ul"; "li"; "pre";
          "address"; "blockquote"; "dl"; "div"; "fieldset"; "form"; "table";
          "tr"; "select"; "option"]%string.

Definition BLOCK_TAGS_REGEX (tagName : jsstring) : bool :=
  existsb (streq (toLower tagName)) BLOCK_TAGS.

(** ** [htmlToText] *)

(** The chunk a text node contributes.  [parentTag] is [elem.parent.tagName]
    ([None] when the parent has no tag name, as for a document node). *)
Definition text_chunk (parentTag : option jsstring) (data text : jsstring)
  : jsstring :=
  let compr :=
    if bool_decide (parentTag = Some (js "pre")) then data else collapse data in
  if startsWith_space compr && empty_or_ends_space text
  then substring1 compr else compr.

(** One iteration of the loop of [process] on [elem], with the captured
    accumulator [text] passed in and returned. *)
Fixpoint process_node (parentTag : option jsstring) (elem : Node)
  (text : jsstring) {struct elem} : jsstring :=
  let process (tag : option jsstring) :=
    fix go (elems : list Node) (text : jsstring) {struct elems} : jsstring :=
      match elems with
      | [] => text
      | e :: es => go es (process_node tag e text)
      end in
  match elem with
  | Text data => text ++ text_chunk parentTag data text
  | Comment _ => text
  | Directive _ _ => text
  | CData children => process None children text
  | Document children => process None children text
  | Element tagName _ children =>
      if SKIP_TAGS_REGEX tagName then text
      else if streq tagName (js "br") then text ++ [LF]
      else if streq tagName (js "td") then
        process (Some tagName) children text ++ [TAB]
      else
        let isBlockTag := BLOCK_TAGS_REGEX tagName in
        let text :=
          if isBlockTag && negb (empty_or_ends_LF text)
          then text ++ [LF] else text in
        let text := process (Some tagName) children text in
        if isBlockTag && negb (endsWith_LF text) then text ++ [LF] else text
  end.

(** [process(elems)]: the loop over a node list whose members have parent
    tag [parentTag]. *)
Definition process (parentTag : option jsstring)
  : list Node -> jsstring -> jsstring :=
  fix go (elems : list Node) (text : jsstring) {struct elems} : jsstring :=
    match elems with
    | [] => text
    | e :: es => go es (process_node parentTag e text)
    end.

(** The nodes the traversal starts from: [$('body')] when it is not empty,
    [$.root()] otherwise.  They are elements or the document node, so their
    own parent is never consulted. *)
Definition start_nodes (dollar : CheerioAPI) : list Node :=
  match select dollar (js "body") with
  | [] => [root dollar]
  | body => body
  end.

Section Parser.

(** [cheerio.load(html, { decodeEntities: true })], the external parser. *)
Variable load : jsstring -> CheerioAPI.

Definition htmlToText (htmlOrCheerioElement : jsstring + CheerioAPI)
  : jsstring :=
  match htmlOrCheerioElement with
  | inl [] => []
  | inl html => trim (process None (start_nodes (load html)) [])
  | inr dollar => trim (process None (start_nodes dollar) [])
  end.

(** The handle the traversal runs on: none for the empty string. *)
Definition parsed (htmlOrCheerioElement : jsstring + CheerioAPI)
  : option CheerioAPI :=
  match htmlOrCheerioElement with
  | inl [] => None
  | inl html => Some (load html)
  | inr dollar => Some dollar
  end.

End Parser.

(** ** [extractUrlsFromCheerio] *)

(** A call either returns a value or throws an [Error] with a message. *)
Inductive Result (A : Type) : Type :=
| Return (value : A)
| Throw (message : jsstring).
Arguments Return {A} value.
Arguments Throw {A} message.

#[global] Instance Result_ret : MRet Result := fun A a => Return a.

#[global] Instance Result_bind : MBind Result := fun A B k r =>
  match r with
  | Return a => k a
  | Throw m => Throw m
  end.

(** [array.map(f)] with a callback that may throw: the elements are visited
    from the first on, and the first throw leaves the whole call. *)
Fixpoint array_map {A B : Type} (f : A -> Result B) (l : list A)
  : Result (list B) :=
  match l with
  | [] => Return []
  | a :: l' =>
      b ← f a;
      bs ← array_map f l';
      mret (b :: bs)
  end.

(** JavaScript truthiness of a string: every string but the empty one. *)
Definition truthy (s : jsstring) : bool :=
  match s with
  | [] => false
  | _ :: _ => true
  end.

(** [.filter(Boolean)] on an array of strings. *)
Definition filter_Boolean (l : list jsstring) : list jsstring :=
  List.filter truthy l.

(** [.filter(Boolean)] on an array of [string | undefined]. *)
Fixpoint filter_Boolean_opt (l : list (option jsstring)) : list jsstring :=
  match l with
  | [] => []
  | Some s :: l' =>
      if truthy s then s :: filter_Boolean_opt l' else filter_Boolean_opt l'
  | None :: l' => filter_Boolean_opt l'
  end.

(** [$(...).attr(name)]: the attribute of the first matched node, when that
    node is an element that has it. *)
Definition attr (matched : list Node) (name : jsstring) : option jsstring :=
  match matched with
  | Element _ attribs _ :: _ => attribs !! name
  | _ => None
  end.

(** [$(selector).map((_i, el) => $(el).attr('href')).get()]: cheerio's [map]
    leaves out the elements for which the callback gives [undefined]. *)
Fixpoint map_href (matched : list Node) : list jsstring :=
  match matched with
  | [] => []
  | el :: rest =>
      match attr [el] (js "href") with
      | Some href => href :: map_href rest
      | None => map_href rest
      end
  end.

(** The hrefs that reach the second [map]. *)
Definition collected_hrefs (dollar : CheerioAPI) (selector : jsstring)
  : list jsstring :=
  filter_Boolean (map_href (select dollar selector)).

(** [/^[a-z][a-z0-9+.-]*:/.test(href)] *)
Definition is_az (c : N) : bool := (97 <=? c) && (c <=? 122).

Definition is_scheme_unit (c : N) : bool :=
  is_az c || ((48 <=? c) && (c <=? 57)) || (c =? 43) || (c =? 46) || (c =? 45).

Definition COLON : N := 58.

(** [[a-z0-9+.-]*:] at the start of [s]; the colon is outside the class, so
    the star stops at the first code unit outside the class, which must be
    the colon. *)
Fixpoint scheme_tail (s : jsstring) : bool :=
  match s with
  | [] => false
  | c :: s' => if is_scheme_unit c then scheme_tail s' else c =? COLON
  end.

Definition isHrefAbsolute (href : jsstring) : bool :=
  match href with
  | [] => false
  | c :: s => is_az c && scheme_tail s
  end.

Definition relative_url_error (href : jsstring) : jsstring :=
  js "An extracted URL: " ++ href ++
  js " is relative and baseUrl is not set. " ++
  js "Provide a baseUrl to automatically resolve relative URLs.".

Section Resolver.

(** [tryAbsoluteURL(href, baseUrl)] of [./extract-urls]: the absolute URL,
    or [undefined]. *)
Variable tryAbsoluteURL : jsstring -> jsstring -> option jsstring.

(** [base && tryAbsoluteURL(base, baseUrl)] *)
Definition absoluteBaseUrl (dollar : CheerioAPI) (baseUrl : jsstring)
  : option jsstring :=
  match attr (select dollar (js "base")) (js "href") with
  | Some base => if truthy base then tryAbsoluteURL base baseUrl else Some base
  | None => None
  end.

(** The value of [baseUrl] after the override of lines 100-102. *)
Definition effective_baseUrl (dollar : CheerioAPI) (baseUrl : jsstring)
  : jsstring :=
  match absoluteBaseUrl dollar baseUrl with
  | Some u => if truthy u then u else baseUrl
  | None => baseUrl
  end.

(** The callback of the second [map]. *)
Definition resolve_href (baseUrl href : jsstring)
  : Result (option jsstring) :=
  if negb (isHrefAbsolute href) && negb (truthy baseUrl)
  then Throw (relative_url_error href)
  else Return (if truthy baseUrl then tryAbsoluteURL href baseUrl
               else Some href).

(** The parameters default to ['a'] and [''] when the caller leaves them
    out; here they are always given. *)
Definition extractUrlsFromCheerio (dollar : CheerioAPI)
  (selector baseUrl : jsstring) : Result (list jsstring) :=
  let baseUrl := effective_baseUrl dollar baseUrl in
  urls ← array_map (resolve_href baseUrl) (collected_hrefs dollar selector);
  mret (filter_Boolean_opt urls).

End Resolver.

(** ** Concrete documents *)

Module Samples.

(** The elements with tag [name] below [n], in document order. *)
Fixpoint elementsByTagName (name : jsstring) (n : Node) {struct n}
  : list Node :=
  let below :=
    fix below (l : list Node) : list Node :=
      match l with
      | [] => []
      | c :: cs => elementsByTagName name c ++ below cs
      end in
  match n with
  | Element t _ ch => (if streq t name then [n] else []) ++ below ch
  | Document ch => below ch
  | CData ch => below ch
  | _ => []
  end.

(** A handle on a parsed document that answers type selectors (a bare tag
    name such as ['body'], ['base'] or ['a']). *)
Definition handle (doc : Node) : CheerioAPI :=
  {| select := fun selector => elementsByTagName selector doc;
     root := doc |}.

Definition el (tag : string) (children : list Node) : Node :=
  Element (js tag) ∅ children.

Definition el_href (tag href : string) (children : list Node) : Node :=
  Element (js tag) {[ js "href" := js href ]} children.

Definition page (head body : list Node) : CheerioAPI :=
  handle (Document [el "html" [el "head" head; el "body" body]]).

(** The tree of [<table><tr><td>A</td><td>B</td></tr></table>] as the HTML
    parser builds it: wrapped in html, head and body, the row inside an
    implied tbody. *)
Definition table_html : jsstring :=
  js "<table><tr><td>A</td><td>B</td></tr></table>".

Definition table_rows : list Node :=
  [el "tr" [el "td" [Text (js "A")]; el "td" [Text (js "B")]]].

Definition table_page : CheerioAPI :=
  page [] [el "table" [el "tbody" table_rows]].

(** The same markup without the implied elements (a fragment). *)
Definition table_fragment : CheerioAPI :=
  handle (Document [el "table" table_rows]).

(** A parser that knows this one markup; any other input gives the empty
    page. *)
Definition load_sample (html : jsstring) : CheerioAPI :=
  if streq html table_html then table_page else page [] [].

(** [<body>a<pre> x</pre></body>] *)
Definition pre_page : CheerioAPI :=
  page [] [Text (js "a"); el "pre" [Text (js " x")]].

(** [<body>a<br>b</body>] *)
Definition br_page : CheerioAPI :=
  page [] [Text (js "a"); el "br" []; Text (js "b")].

(** [<body>a<br><br><br>b</body>] *)
Definition br3_page : CheerioAPI :=
  page [] [Text (js "a"); el "br" []; el "br" []; el "br" []; Text (js "b")].

(** [<head><title>T</title></head><body>x</body>] *)
Definition title_page : CheerioAPI :=
  page [el "title" [Text (js "T")]] [Text (js "x")].

(** [<div><p>a</p><div><p>b</p></div></div><ul><li>c</li></ul>] *)
Definition nested_blocks : CheerioAPI :=
  page [] [el "div" [el "p" [Text (js "a")];
                     el "div" [el "p" [Text (js "b")]]];
           el "ul" [el "li" [Text (js "c")]]].

(** [<span> Some  <b>bold </b> <i> text</i></span>] with a comment. *)
Definition inline_page : CheerioAPI :=
  page [] [el "span" [Text (js " Some  "); el "b" [Text (js "bold ")];
                      Comment (js "note"); Text (js " ");
                      el "i" [Text (js " text")]]].

(** [<a href="https://x.com">] *)
Definition absolute_link : CheerioAPI :=
  page [] [el_href "a" "https://x.com" [Text (js "x")]].

(** [<a href="/x">] *)
Definition relative_link : CheerioAPI :=
  page [] [el_href "a" "/x" [Text (js "x")]].

(** [<a href="https://x.com"><a href="/x"><a href="/y">] *)
Definition mixed_links : CheerioAPI :=
  page [] [el_href "a" "https://x.com" []; el_href "a" "/x" [];
           el_href "a" "/y" []].

(** [<a name="top"><a href="">]: anchors without a usable href. *)
Definition hrefless_links : CheerioAPI :=
  page [] [Element (js "a") {[ js "name" := js "top" ]} [];
           el_href "a" "" []].

(** [<base href="https://other.com/">] and [<a href="/x">] *)
Definition based_link : CheerioAPI :=
  page [el_href "base" "https://other.com/" []] [el_href "a" "/x" []].

(** [<base target="_blank"><base href="https://other.com/">] and
    [<a href="/x">]: the first base element has no href. *)
Definition two_bases : CheerioAPI :=
  page [Element (js "base") {[ js "target" := js "_blank" ]} [];
        el_href "base" "https://other.com/" []]
       [el_href "a" "/x" []].

(** [<base href="http://">] (no host: it does not resolve) and
    [<a href="/x">]. *)
Definition bad_base : CheerioAPI :=
  page [el_href "base" "http://" []] [el_href "a" "/x" []].

(** Modelled from the spec: the URL resolution utility [tryAbsoluteURL] of
    [./extract-urls], which "given a possibly-relative reference and a base
    URL, returns an absolute URL or a falsy result on failure".  The table
    holds the answers of the platform URL parser, [new URL(href, base).href],
    on the hrefs and bases of the documents above; any other pair is left
    unresolved. *)
Definition url_table : list (jsstring * jsstring * jsstring) :=
  [ (js "https://x.com", js "https://example.com/", js "https://x.com/");
    (js "/x", js "https://example.com/", js "https://example.com/x");
    (js "/y", js "https://example.com/", js "https://example.com/y");
    (js "https://other.com/", js "https://example.com/",
      js "https://other.com/");
    (js "/x", js "https://other.com/", js "https://other.com/x");
    (js "mailto:a@b.com", js "https://example.com/", js "mailto:a@b.com") ].

Fixpoint lookup_url (t : list (jsstring * jsstring * jsstring))
  (href base : jsstring) : option jsstring :=
  match t with
  | [] => None
  | (h, b, u) :: t' =>
      if streq h href && streq b base then Some u else lookup_url t' href base
  end.

(** Modelled from the spec: [tryAbsoluteURL] of [./extract-urls], answering
    from the table above. *)
Definition url_parser (href base : jsstring) : option jsstring :=
  lookup_url url_table href base.

End Samples.

Import Samples.

(** ** Predicates on documents *)

(** The text nodes reached by the traversal: [visits p n q d] says that
    processing [n], whose parent has tag [p], reaches a text node with
    character data [d] whose parent has tag [q]. *)
Inductive visits : option jsstring -> Node -> option jsstring -> jsstring -> Prop :=
| visits_Text p d :
    visits p (Text d) p d
| visits_CData p ch c q d :
    In c ch -> visits None c q d -> visits p (CData ch) q d
| visits_Document p ch c q d :
    In c ch -> visits None c q d -> visits p (Document ch) q d
| visits_Element p t a ch c q d :
    SKIP_TAGS_REGEX t = false -> streq t (js "br") = false ->
    In c ch -> visits (Some t) c q d -> visits p (Element t a ch) q d.

(** The character data of the text nodes below [n], in document order. *)
Fixpoint textContent (n : Node) : jsstring :=
  match n with
  | Text d => d
  | Comment _ => []
  | Directive _ _ => []
  | CData ch => flat_map textContent ch
  | Document ch => flat_map textContent ch
  | Element _ _ ch => flat_map textContent ch
  end.

(** No element below [n] (or [n] itself) has a tag for which [bad] holds. *)
Fixpoint no_tag (bad : jsstring -> bool) (n : Node) : bool :=
  match n with
  | Element t _ ch => negb (bad t) && forallb (no_tag bad) ch
  | CData ch => forallb (no_tag bad) ch
  | Document ch => forallb (no_tag bad) ch
  | _ => true
  end.

(** No [pre] and no [br] element. *)
Definition no_pre_br : Node -> bool :=
  no_tag (fun t => streq t (js "pre") || streq t (js "br")).

(** No element of the block set and none of the skip set. *)
Definition no_block_skip : Node -> bool :=
  no_tag (fun t => BLOCK_TAGS_REGEX t || SKIP_TAGS_REGEX t).

(** Moreover no [br] and no [td] element: only elements that leave the
    accumulator to their children. *)
Definition inline_only : Node -> bool :=
  no_tag (fun t => BLOCK_TAGS_REGEX t || SKIP_TAGS_REGEX t
                   || streq t (js "br") || streq t (js "td")).

(** Two adjacent line feeds somewhere in [s]. *)
Definition starts_LF (s : jsstring) : bool :=
  match s with
  | c :: _ => c =? LF
  | [] => false
  end.

Fixpoint has_LFLF (s : jsstring) : bool :=
  match s with
  | [] => false
  | c :: s' => ((c =? LF) && starts_LF s') || has_LFLF s'
  end.

(** The LineTerminator code units: LF, CR, LS and PS. *)
Definition is_line_terminator (c : N) : bool :=
  (c =? 10) || (c =? 13) || (c =? 8232) || (c =? 8233).

(** An element with tag [br]. *)
Definition is_br (n : Node) : Prop :=
  exists attribs children, n = Element (js "br") attribs children.

(** ** The specification's reading of the scheme test and of the text of a
    document *)




(** "The whitespace-collapsed concatenation of the character data of all
    its text nodes, in document order". *)
Definition collapsed_document_text (dollar : CheerioAPI) : jsstring :=
  collapse (textContent (root dollar)).

(** ** More concrete documents *)

Module MoreSamples.

(** [<body>a<!--c--><script>x()</script><b> b<!--d--></b></body>] *)
Definition noisy_page : CheerioAPI :=
  page [] [Text (js "a"); Comment (js "c"); el "script" [Text (js "x()")];
           el "b" [Text (js " b"); Comment (js "d")]].

(** [<body>a<b> b</b></body>] *)
Definition quiet_page : CheerioAPI :=
  page [] [Text (js "a"); el "b" [Text (js " b")]].

(** [<body> one <td> two </td><br> <p> three</p> </body>] *)
Definition spaced_page : CheerioAPI :=
  page [] [Text (js " one "); el "td" [Text (js " two ")]; el "br" [];
           Text (js " "); el "p" [Text (js " three")]; Text (js " ")].

(** [<a name="top">], [<a href="">], [<a href="mailto:a@b.com">],
    [<a href="https://x.com">] *)
Definition absolute_links : CheerioAPI :=
  page [] [Element (js "a") {[ js "name" := js "top" ]} [];
           el_href "a" "" [];
           el_href "a" "mailto:a@b.com" [];
           el_href "a" "https://x.com" []].

End MoreSamples.
Import MoreSamples.

(** ** Further notions for the text extractor *)

(** The code units of [s] that are not whitespace. *)
Definition nonspace (s : jsstring) : jsstring :=
  List.filter (fun c => negb (is_space c)) s.

(** The character data of the text nodes that the traversal of [n]
    reaches: nothing below a skip-set element or a [br], no comment. *)
Fixpoint visibleText (n : Node) : jsstring :=
  match n with
  | Text d => d
  | Comment _ => []
  | Directive _ _ => []
  | CData ch => flat_map visibleText ch
  | Document ch => flat_map visibleText ch
  | Element t _ ch =>
      if SKIP_TAGS_REGEX t || streq t (js "br") then []
      else flat_map visibleText ch
  end.

(** [n] without its comments and its skip-set elements (none or one node). *)
Fixpoint prune (n : Node) : list Node :=
  match n with
  | Text d => [Text d]
  | Comment _ => []
  | Directive name d => [Directive name d]
  | CData ch => [CData (flat_map prune ch)]
  | Document ch => [Document (flat_map prune ch)]
  | Element t a ch =>
      if SKIP_TAGS_REGEX t then [] else [Element t a (flat_map prune ch)]
  end.

(** No [pre] element. *)
Definition no_pre : Node -> bool :=
  no_tag (fun t => streq t (js "pre")).

(** Some whitespace code unit of [s] is directly followed by a space. *)
Fixpoint space_after_ws (s : jsstring) : bool :=
  match s with
  | [] => false
  | c :: s' => (is_space c && startsWith_space s') || space_after_ws s'
  end.

(** [s] ends in a whitespace code unit. *)
Definition ends_ws (s : jsstring) : bool :=
  match last_unit s with
  | None => false
  | Some c => is_space c
  end.

(** The accumulator of a document without [pre]: no space after
    whitespace, and no whitespace but space, tab and line feed. *)
Definition normal_ws (text : jsstring) : Prop :=
  space_after_ws text = false
  /\ Forall (fun c => is_space c = true -> c = SPACE \/ c = TAB \/ c = LF) text.

(** ** Invariants of the accumulator *)

(** The accumulator holds no two adjacent line feeds and no line terminator
    other than the line feed. *)
Definition clean (text : jsstring) : Prop :=
  has_LFLF text = false
  /\ Forall (fun c => is_line_terminator c = true -> c = LF) text.

(** Whether [replace_ws] is inside a run of whitespace after reading [s],
    having started in state [b]. *)
Definition ws_state (b : bool) (s : jsstring) : bool :=
  match last_unit s with
  | None => b
  | Some c => is_space c
  end.

(** The accumulator at the moment a text node is reached:
    [reaches p n text q d acc] says that processing [n] (parent tag [p])
    from the accumulator [text] comes to a text node with data [d] and
    parent tag [q] when the accumulator is [acc].  On the way down to the
    node, the siblings before it have gone through the loop, and a block
    element on the path has opened its line. *)
Inductive reaches :
  option jsstring -> Node -> jsstring ->
  option jsstring -> jsstring -> jsstring -> Prop :=
| reaches_Text p d text :
    reaches p (Text d) text p d text
| reaches_CData p before c after text q d acc :
    reaches None c (process None before text) q d acc ->
    reaches p (CData (before ++ c :: after)) text q d acc
| reaches_Document p before c after text q d acc :
    reaches None c (process None before text) q d acc ->
    reaches p (Document (before ++ c :: after)) text q d acc
| reaches_td p a before c after text q d acc :
    reaches (Some (js "td")) c (process (Some (js "td")) before text) q d acc ->
    reaches p (Element (js "td") a (before ++ c :: after)) text q d acc
| reaches_Element p t a before c after text q d acc :
    SKIP_TAGS_REGEX t = false ->
    streq t (js "br") = false ->
    streq t (js "td") = false ->
    reaches (Some t) c
      (process (Some t) before
         (if BLOCK_TAGS_REGEX t && negb (empty_or_ends_LF text)
          then text ++ [LF] else text)) q d acc ->
    reaches p (Element t a (before ++ c :: after)) text q d acc.

(** ** Induction on documents *)

Section NodeInduction.

Variable P : Node -> Prop.
Hypothesis HText : forall d, P (Text d).
Hypothesis HComment : forall d, P (Comment d).
Hypothesis HDirective : forall n d, P (Directive n d).
Hypothesis HCData : forall ch, Forall P ch -> P (CData ch).
Hypothesis HDocument : forall ch, Forall P ch -> P (Document ch).
Hypothesis HElement : forall t a ch, Forall P ch -> P (Element t a ch).

Fixpoint Node_children_ind (n : Node) : P n :=
  let all :=
    fix all (l : list Node) : Forall P l :=
      match l with
      | [] => @List.Forall_nil Node P
      | c :: cs => @List.Forall_cons Node P c cs (Node_children_ind c) (all cs)
      end in
  match n with
  | Text d => HText d
  | Comment d => HComment d
  | Directive n d => HDirective n d
  | CData ch => HCData ch (all ch)
  | Document ch => HDocument ch (all ch)
  | Element t a ch => HElement t a ch (all ch)
  end.

End NodeInduction.

(** * Properties *)

(** ** The loop and its body *)

Lemma process_nil p text : process p [] text = text.
Proof. reflexivity. Qed.

Lemma process_cons p e es text :
  process p (e :: es) text = process p es (process_node p e text).
Proof. reflexivity. Qed.

Lemma process_app p l1 l2 text :
  process p (l1 ++ l2) text = process p l2 (process p l1 text).
Proof.
  revert text. induction l1 as [|e l1 IH]; intros text; [reflexivity|].
  rewrite <- app_comm_cons, !process_cons. apply IH.
Qed.

Lemma process_node_Text p d text :
  process_node p (Text d) text = text ++ text_chunk p d text.
Proof. reflexivity. Qed.

Lemma process_node_CData p ch text :
  process_node p (CData ch) text = process None ch text.
Proof. reflexivity. Qed.

Lemma process_node_Document p ch text :
  process_node p (Document ch) text = process None ch text.
Proof. reflexivity. Qed.

Lemma process_node_Element p t a ch text :
  process_node p (Element t a ch) text =
    if SKIP_TAGS_REGEX t then text
    else if streq t (js "br") then text ++ [LF]
    else if streq t (js "td") then process (Some t) ch text ++ [TAB]
    else
      let text1 :=
        if BLOCK_TAGS_REGEX t && negb (empty_or_ends_LF text)
        then text ++ [LF] else text in
      let text2 := process (Some t) ch text1 in
      if BLOCK_TAGS_REGEX t && negb (endsWith_LF text2)
      then text2 ++ [LF] else text2.
Proof. reflexivity. Qed.

Lemma process_node_br p a ch text :
  process_node p (Element (js "br") a ch) text = text ++ [LF].
Proof. reflexivity. Qed.

Lemma htmlToText_parsed load input dollar :
  parsed load input = Some dollar ->
  htmlToText load input = trim (process None (start_nodes dollar) []).
Proof.
  destruct input as [[|a html]|d]; cbn [parsed htmlToText];
    [discriminate|now intros [= <-]|now intros [= <-]].
Qed.

(** C10. A [br] element appends one line feed whatever the accumulator
    holds: processing a run of [br] elements appends as many line feeds as
    the run has elements, also when the accumulator already ends in one. *)
Theorem br_run_appends_line_feeds (p : option jsstring) (brs : list Node)
  (text : jsstring) :
  Forall is_br brs ->
  process p brs text = text ++ repeat LF (length brs).
Proof.
  intros Hbr. revert text.
  induction Hbr as [|e brs (a & ch & ->) _ IH]; intros text.
  - rewrite process_nil. cbn. now rewrite app_nil_r.
  - rewrite process_cons, process_node_br, IH. cbn [length repeat].
    now rewrite <- app_assoc.
Qed.

Lemma br_run_appends_line_feeds_witness :
  process (Some (js "p")) [el "br" []; el "br" []; el "br" []] (js "a" ++ [LF])
  = (js "a" ++ [LF]) ++ [LF; LF; LF].
Proof.
  apply (br_run_appends_line_feeds (Some (js "p"))
           [el "br" []; el "br" []; el "br" []] (js "a" ++ [LF])).
  repeat constructor; unfold is_br, el; eauto.
Defined.

(** ** Facts on strings *)

Lemma last_unit_snoc s c : last_unit (s ++ [c]) = Some c.
Proof.
  induction s as [|a s IH]; [reflexivity|].
  cbn [app last_unit]. destruct (s ++ [c]) eqn:E; [|exact IH].
  now destruct s.
Qed.

Lemma last_unit_None s : last_unit s = None -> s = [].
Proof.
  destruct s as [|a s] using rev_ind; [reflexivity|].
  now rewrite last_unit_snoc.
Qed.

Lemma has_LFLF_app s t :
  has_LFLF (s ++ t) = has_LFLF s || (endsWith_LF s && starts_LF t) || has_LFLF t.
Proof.
  induction s as [|a s IH]; [reflexivity|].
  cbn [app has_LFLF]. rewrite IH. unfold endsWith_LF. cbn [last_unit].
  destruct s as [|b s]; cbn [app starts_LF last_unit has_LFLF].
  - destruct (a =? LF), (starts_LF t), (has_LFLF t); reflexivity.
  - destruct ((a =? LF) && (b =? LF)); [reflexivity|]. cbn [orb].
    reflexivity.
Qed.

(** [has_LFLF] decides the occurrence of two adjacent line feeds. *)
Lemma has_LFLF_infix s : has_LFLF s = false -> ~ infix [LF; LF] s.
Proof.
  intros H (pre & post & ->).
  rewrite has_LFLF_app in H. cbn in H.
  now rewrite !orb_true_r in H.
Qed.

Lemma trimStart_suffix s : exists pre, s = pre ++ trimStart s.
Proof.
  induction s as [|c s (pre & IH)]; [now exists []|].
  cbn [trimStart]. destruct (is_space c).
  - exists (c :: pre). cbn. now rewrite <- IH.
  - now exists [].
Qed.

Lemma trimEnd_prefix s : exists post, s = trimEnd s ++ post.
Proof.
  unfold trimEnd. destruct (trimStart_suffix (rev s)) as (pre & E).
  exists (rev pre). rewrite <- rev_app_distr, <- E. now rewrite rev_involutive.
Qed.

(** [trim] keeps a contiguous part of its argument. *)
Lemma trim_infix s : exists pre post, s = pre ++ trim s ++ post.
Proof.
  unfold trim. destruct (trimStart_suffix s) as (pre & E).
  destruct (trimEnd_prefix (trimStart s)) as (post & E').
  exists pre, post. now rewrite <- E', <- E.
Qed.

Lemma has_LFLF_trim s : has_LFLF s = false -> has_LFLF (trim s) = false.
Proof.
  intros H. destruct (trim_infix s) as (pre & post & E).
  rewrite E, has_LFLF_app in H. apply orb_false_elim in H as [_ H].
  rewrite has_LFLF_app in H. apply orb_false_elim in H as [H _].
  now apply orb_false_elim in H as [H _].
Qed.

Lemma Forall_trim (Q : N -> Prop) s : Forall Q s -> Forall Q (trim s).
Proof.
  intros H. destruct (trim_infix s) as (pre & post & E).
  rewrite E in H. apply Forall_app in H as [_ H].
  now apply Forall_app in H as [H _].
Qed.

(** The whitespace left by [replace(/\s+/g, ' ')] is the space. *)
Lemma replace_ws_units b d :
  Forall (fun c => is_space c = true -> c = SPACE) (replace_ws b d).
Proof.
  revert b. induction d as [|c d IH]; intros b; cbn [replace_ws].
  - constructor.
  - destruct (is_space c) eqn:Hc.
    + destruct b; [apply IH|]. constructor; [reflexivity|apply IH].
    + constructor; [congruence|apply IH].
Qed.

Lemma Forall_tl {A} (Q : A -> Prop) (l : list A) : Forall Q l -> Forall Q (tl l).
Proof. intros H. destruct H; [constructor|assumption]. Qed.

(** Outside [pre] a text node hands over no whitespace but spaces. *)
Lemma text_chunk_units p d text :
  p <> Some (js "pre") ->
  Forall (fun c => is_space c = true -> c = SPACE) (text_chunk p d text).
Proof.
  intros Hp. unfold text_chunk.
  rewrite bool_decide_eq_false_2 by assumption.
  destruct (_ && _); [apply Forall_tl|]; apply replace_ws_units.
Qed.

(** Appending a chunk without line feeds creates no pair of line feeds. *)
Lemma has_LFLF_app_clean s t :
  has_LFLF s = false -> Forall (fun c => c <> LF) t -> has_LFLF (s ++ t) = false.
Proof.
  intros Hs Ht. rewrite has_LFLF_app, Hs. cbn [orb].
  assert (starts_LF t = false) as ->.
  { destruct Ht as [|c t Hc _]; [reflexivity|]. cbn. now apply N.eqb_neq. }
  rewrite andb_false_r. cbn [orb].
  induction Ht as [|c t Hc _ IH]; [reflexivity|].
  cbn [has_LFLF]. rewrite IH. apply N.eqb_neq in Hc. now rewrite Hc.
Qed.

(** Appending a line feed to a string that does not end in one. *)
Lemma has_LFLF_app_LF s :
  has_LFLF s = false -> endsWith_LF s = false -> has_LFLF (s ++ [LF]) = false.
Proof.
  intros Hs He. rewrite has_LFLF_app, Hs, He. reflexivity.
Qed.

Lemma empty_or_ends_LF_false s :
  empty_or_ends_LF s = false -> endsWith_LF s = false.
Proof.
  unfold empty_or_ends_LF, endsWith_LF. now destruct (last_unit s).
Qed.

(** ** No blank lines from nesting *)

Lemma line_terminator_is_space c :
  is_line_terminator c = true -> is_space c = true.
Proof.
  unfold is_line_terminator. rewrite !orb_true_iff, !N.eqb_eq.
  intros [[[-> | ->] | ->] | ->]; reflexivity.
Qed.

Lemma clean_nil : clean [].
Proof. split; [reflexivity|constructor]. Qed.

Lemma clean_app_chunk text chunk :
  clean text ->
  Forall (fun c => is_space c = true -> c = SPACE) chunk ->
  clean (text ++ chunk).
Proof.
  intros [H1 H2] Hc. split.
  - apply has_LFLF_app_clean; [assumption|].
    eapply List.Forall_impl; [|exact Hc]. cbn. intros c Hsp ->.
    now specialize (Hsp eq_refl).
  - apply Forall_app. split; [assumption|].
    eapply List.Forall_impl; [|exact Hc]. cbn. intros c Hsp Hlt.
    specialize (Hsp (line_terminator_is_space c Hlt)). now subst c.
Qed.

Lemma clean_app_TAB text : clean text -> clean (text ++ [TAB]).
Proof.
  intros [H1 H2]. split.
  - apply has_LFLF_app_clean; [assumption|]. now repeat constructor.
  - apply Forall_app. split; [assumption|]. now repeat constructor.
Qed.

Lemma clean_app_LF text :
  clean text -> endsWith_LF text = false -> clean (text ++ [LF]).
Proof.
  intros [H1 H2] He. split.
  - now apply has_LFLF_app_LF.
  - apply Forall_app. split; [assumption|]. now repeat constructor.
Qed.

Lemma clean_trim text : clean text -> clean (trim text).
Proof.
  intros [H1 H2]. split; [now apply has_LFLF_trim|now apply Forall_trim].
Qed.

Lemma no_tag_Element bad t a ch :
  no_tag bad (Element t a ch) = negb (bad t) && forallb (no_tag bad) ch.
Proof. reflexivity. Qed.

Lemma streq_false a b : streq a b = false -> a <> b.
Proof. unfold streq. apply bool_decide_eq_false_1. Qed.

(** The loop keeps what its body keeps on every member. *)
Lemma process_preserves (Q : jsstring -> Prop) (ok : Node -> bool) p ch :
  Forall (fun c => ok c = true ->
            forall q text, q = p -> Q text -> Q (process_node q c text)) ch ->
  forallb ok ch = true ->
  forall text, Q text -> Q (process p ch text).
Proof.
  induction 1 as [|c ch Hc _ IH]; intros Hok text Hq; [exact Hq|].
  cbn [forallb] in Hok. apply andb_prop in Hok as [Hok1 Hok2].
  rewrite process_cons. apply IH; [assumption|]. now apply Hc.
Qed.

Lemma process_node_clean elem :
  no_pre_br elem = true ->
  forall p text, p <> Some (js "pre") -> clean text ->
    clean (process_node p elem text).
Proof.
  induction elem as [d|d|n d|ch IH|ch IH|t a ch IH] using Node_children_ind;
    intros Hok p text Hp Hc.
  - rewrite process_node_Text. apply clean_app_chunk; [assumption|].
    now apply text_chunk_units.
  - exact Hc.
  - exact Hc.
  - rewrite process_node_CData.
    apply (process_preserves clean no_pre_br None ch); [|exact Hok|exact Hc].
    eapply List.Forall_impl; [|exact IH]. cbn. intros c Hc' Hokc q text' -> Hcl.
    now apply Hc'.
  - rewrite process_node_Document.
    apply (process_preserves clean no_pre_br None ch); [|exact Hok|exact Hc].
    eapply List.Forall_impl; [|exact IH]. cbn. intros c Hc' Hokc q text' -> Hcl.
    now apply Hc'.
  - unfold no_pre_br in Hok. rewrite no_tag_Element in Hok.
    apply andb_prop in Hok as [Ht Hch].
    apply negb_true_iff, orb_false_elim in Ht as [Hpre Hbr].
    assert (Hchildren : forall text', clean text' ->
              clean (process (Some t) ch text')).
    { intros text' Hcl.
      apply (process_preserves clean no_pre_br (Some t) ch);
        [|exact Hch|exact Hcl].
      eapply List.Forall_impl; [|exact IH]. cbn. intros c Hc' Hokc q text'' -> Hcl'.
      apply Hc'; [assumption| |assumption].
      intros [= E]. now apply streq_false in Hpre. }
    rewrite process_node_Element, Hbr.
    destruct (SKIP_TAGS_REGEX t); [exact Hc|].
    destruct (streq t (js "td")); [now apply clean_app_TAB, Hchildren|].
    cbn zeta.
    set (text1 := if BLOCK_TAGS_REGEX t && negb (empty_or_ends_LF text)
                  then text ++ [LF] else text).
    assert (Hc1 : clean text1).
    { subst text1. destruct (BLOCK_TAGS_REGEX t); [|exact Hc]. cbn [andb].
      destruct (empty_or_ends_LF text) eqn:He; [exact Hc|]. cbn [negb].
      apply clean_app_LF; [assumption|]. now apply empty_or_ends_LF_false. }
    specialize (Hchildren text1 Hc1).
    destruct (BLOCK_TAGS_REGEX t); [|exact Hchildren]. cbn [andb].
    destruct (endsWith_LF (process (Some t) ch text1)) eqn:He;
      [exact Hchildren|].
    cbn [negb]. now apply clean_app_LF.
Qed.

(** C5. In a document without [pre] and [br] elements the returned text
    never holds two adjacent line breaks: the line feeds inserted before and
    after nested block elements fall together.  (Collapsed text holds no
    line break at all, so the text nodes need no condition.) *)
Theorem no_consecutive_line_breaks (load : jsstring -> CheerioAPI)
  (input : jsstring + CheerioAPI) (dollar : CheerioAPI) :
  parsed load input = Some dollar ->
  forallb no_pre_br (start_nodes dollar) = true ->
  ~ infix [LF; LF] (htmlToText load input)
  /\ forall pre a b post,
       htmlToText load input = pre ++ a :: b :: post ->
       ~ (is_line_terminator a = true /\ is_line_terminator b = true).
Proof.
  intros Hdoc Hok.
  assert (Hclean : clean (htmlToText load input)).
  { rewrite (htmlToText_parsed load input dollar Hdoc). apply clean_trim.
    apply (process_preserves clean no_pre_br None (start_nodes dollar));
      [|exact Hok|exact clean_nil].
    apply Forall_forall. intros c _ Hc q text -> Hcl.
    now apply process_node_clean. }
  destruct Hclean as [H1 H2]. split; [now apply has_LFLF_infix|].
  intros pre a b post E [Ha Hb]. rewrite E in H1, H2.
  apply Forall_app in H2 as [_ H2].
  inversion H2 as [|? ? Ha' H2']; subst. inversion H2' as [|? ? Hb' _]; subst.
  rewrite (Ha' Ha), (Hb' Hb) in H1.
  rewrite has_LFLF_app in H1. cbn in H1.
  now rewrite !orb_true_r in H1.
Qed.

Lemma no_consecutive_line_breaks_witness :
  ~ infix [LF; LF] (htmlToText load_sample (inr nested_blocks)).
Proof.
  apply (no_consecutive_line_breaks load_sample (inr nested_blocks)
           nested_blocks).
  - reflexivity.
  - vm_compute. reflexivity.
Defined.

(** ** Inline documents: the collapsed text *)

Lemma ws_state_cons b c s : ws_state b (c :: s) = ws_state (is_space c) s.
Proof.
  unfold ws_state. destruct s as [|a s]; [reflexivity|].
  change (last_unit (c :: a :: s)) with (last_unit (a :: s)).
  destruct (last_unit (a :: s)) eqn:E; [reflexivity|].
  now apply last_unit_None in E.
Qed.

Lemma replace_ws_app b s d :
  replace_ws b (s ++ d) = replace_ws b s ++ replace_ws (ws_state b s) d.
Proof.
  revert b. induction s as [|c s IH]; intros b; [reflexivity|].
  rewrite ws_state_cons. cbn [app replace_ws].
  destruct (is_space c); [destruct b|]; now rewrite IH.
Qed.

(** The test [/(^|\s)$/] on the accumulator tells the state of the
    collapsing automaton that produced it. *)
Lemma empty_or_ends_space_replace_ws s :
  empty_or_ends_space (replace_ws true s) = ws_state true s.
Proof.
  induction s as [|c s IH] using rev_ind; [reflexivity|].
  rewrite replace_ws_app. unfold ws_state at 2. rewrite last_unit_snoc.
  cbn [replace_ws]. destruct (is_space c) eqn:Hc.
  - destruct (ws_state true s) eqn:Hs.
    + now rewrite app_nil_r, IH.
    + unfold empty_or_ends_space. now rewrite last_unit_snoc.
  - unfold empty_or_ends_space. now rewrite last_unit_snoc.
Qed.

(** The leading-space rule amounts to collapsing from the state the
    accumulator is in. *)
Lemma strip_leading_space b d :
  (if startsWith_space (collapse d) && b
   then substring1 (collapse d) else collapse d) = replace_ws b d.
Proof.
  unfold collapse. destruct b; [|now rewrite andb_false_r].
  rewrite andb_true_r. destruct d as [|c d]; [reflexivity|].
  cbn [replace_ws]. destruct (is_space c) eqn:Hc; [reflexivity|].
  cbn [startsWith_space]. destruct (c =? SPACE) eqn:E; [|reflexivity].
  apply N.eqb_eq in E. now subst c.
Qed.

Lemma text_chunk_collapsed p d s :
  p <> Some (js "pre") ->
  replace_ws true s ++ text_chunk p d (replace_ws true s)
  = replace_ws true (s ++ d).
Proof.
  intros Hp. unfold text_chunk.
  rewrite bool_decide_eq_false_2 by assumption.
  now rewrite strip_leading_space, empty_or_ends_space_replace_ws,
    replace_ws_app.
Qed.

Lemma process_inline p ch :
  Forall (fun c => inline_only c = true ->
            forall q s, q <> Some (js "pre") ->
              process_node q c (replace_ws true s)
              = replace_ws true (s ++ textContent c)) ch ->
  forallb inline_only ch = true ->
  p <> Some (js "pre") ->
  forall s, process p ch (replace_ws true s)
            = replace_ws true (s ++ flat_map textContent ch).
Proof.
  induction 1 as [|c ch Hc _ IH]; intros Hok Hp s.
  - cbn. now rewrite app_nil_r.
  - cbn [forallb] in Hok. apply andb_prop in Hok as [Hok1 Hok2].
    rewrite process_cons, Hc by assumption.
    rewrite IH by assumption. cbn [flat_map]. now rewrite app_assoc.
Qed.

Lemma process_node_inline elem :
  inline_only elem = true ->
  forall p s, p <> Some (js "pre") ->
    process_node p elem (replace_ws true s)
    = replace_ws true (s ++ textContent elem).
Proof.
  induction elem as [d|d|n d|ch IH|ch IH|t a ch IH] using Node_children_ind;
    intros Hok p s Hp.
  - rewrite process_node_Text. now apply text_chunk_collapsed.
  - cbn. now rewrite app_nil_r.
  - cbn. now rewrite app_nil_r.
  - rewrite process_node_CData. now apply process_inline.
  - rewrite process_node_Document. now apply process_inline.
  - unfold inline_only in Hok. rewrite no_tag_Element in Hok.
    apply andb_prop in Hok as [Ht Hch].
    apply negb_true_iff in Ht.
    apply orb_false_elim in Ht as [Ht Htd].
    apply orb_false_elim in Ht as [Ht Hbr].
    apply orb_false_elim in Ht as [Hblock Hskip].
    rewrite process_node_Element, Hskip, Hbr, Htd, Hblock. cbn [andb].
    cbn zeta. apply process_inline; [exact IH|exact Hch|].
    intros [= ->]. discriminate Hblock.
Qed.

Lemma trim_replace_ws b s : trim (replace_ws b s) = trim (collapse s).
Proof.
  unfold collapse. destruct b; [|reflexivity].
  destruct s as [|c s]; [reflexivity|]. cbn [replace_ws].
  now destruct (is_space c).
Qed.

(** C6 (amended).  When the nodes the traversal starts from (the body
    elements if there are any, the document node otherwise) hold no element
    of the block set or of the skip set, and no [br] or [td] element either,
    the result is the trimmed whitespace-collapsed concatenation of the
    character data of the text nodes below those start nodes, in document
    order. *)
Theorem inline_text_is_collapsed_concatenation (load : jsstring -> CheerioAPI)
  (input : jsstring + CheerioAPI) (dollar : CheerioAPI) :
  parsed load input = Some dollar ->
  forallb inline_only (start_nodes dollar) = true ->
  htmlToText load input
  = trim (collapse (flat_map textContent (start_nodes dollar))).
Proof.
  intros Hdoc Hok. rewrite (htmlToText_parsed load input dollar Hdoc).
  change (@nil N) with (replace_ws true []) at 1.
  rewrite process_inline; [apply trim_replace_ws| |exact Hok|discriminate].
  apply Forall_forall. intros c _. apply process_node_inline.
Qed.

Lemma inline_text_is_collapsed_concatenation_witness :
  htmlToText load_sample (inr inline_page) = js "Some bold text".
Proof.
  rewrite (inline_text_is_collapsed_concatenation load_sample
             (inr inline_page) inline_page).
  - vm_compute. reflexivity.
  - reflexivity.
  - vm_compute. reflexivity.
Defined.

(** C6 as stated fails: [<body>a<br>b</body>] holds no element of the block
    set or of the skip set, yet the result keeps the line feed of the [br]
    between the two text nodes. *)
Lemma collapsed_concatenation_counterexample :
  no_block_skip (root br_page) = true
  /\ htmlToText load_sample (inr br_page) = js "a" ++ [LF] ++ js "b"
  /\ collapsed_document_text br_page = js "ab"
  /\ htmlToText load_sample (inr br_page) <> collapsed_document_text br_page
  /\ htmlToText load_sample (inr br_page)
     <> trim (collapsed_document_text br_page).
Proof.
  repeat split; try (vm_compute; reflexivity); vm_compute; discriminate.
Qed.

(** ** What a text node contributes *)

Lemma starts_with_app n post : starts_with n (n ++ post) = true.
Proof.
  induction n as [|a n IH]; [reflexivity|].
  cbn [app starts_with]. now rewrite N.eqb_refl, IH.
Qed.

Lemma infix_includes n s : infix n s -> includes n s = true.
Proof.
  intros (pre & post & ->). induction pre as [|a pre IH].
  - cbn [app]. destruct (n ++ post) eqn:E; cbn [includes];
      rewrite <- E, starts_with_app; reflexivity.
  - cbn [app includes]. rewrite IH. apply orb_true_r.
Qed.

Lemma includes_false n s : includes n s = false -> ~ infix n s.
Proof. intros H Hi. apply infix_includes in Hi. congruence. Qed.

(** The accumulator only grows. *)
Lemma process_extends p ch :
  Forall (fun c => forall q text, exists delta,
            process_node q c text = text ++ delta) ch ->
  forall text, exists delta, process p ch text = text ++ delta.
Proof.
  induction 1 as [|c ch Hc _ IH]; intros text.
  - exists []. now rewrite app_nil_r.
  - rewrite process_cons. destruct (Hc p text) as (d1 & ->).
    destruct (IH (text ++ d1)) as (d2 & ->).
    exists (d1 ++ d2). now rewrite app_assoc.
Qed.

Lemma process_node_extends elem :
  forall p text, exists delta, process_node p elem text = text ++ delta.
Proof.
  induction elem as [d|d|n d|ch IH|ch IH|t a ch IH] using Node_children_ind;
    intros p text.
  - now eexists.
  - exists []. cbn. now rewrite app_nil_r.
  - exists []. cbn. now rewrite app_nil_r.
  - rewrite process_node_CData. now apply process_extends.
  - rewrite process_node_Document. now apply process_extends.
  - rewrite process_node_Element.
    destruct (SKIP_TAGS_REGEX t); [exists []; now rewrite app_nil_r|].
    destruct (streq t (js "br")); [now eexists|].
    destruct (streq t (js "td")).
    { destruct (process_extends (Some t) ch IH text) as (d1 & ->).
      exists (d1 ++ [TAB]). now rewrite app_assoc. }
    cbn zeta.
    destruct (BLOCK_TAGS_REGEX t && negb (empty_or_ends_LF text)).
    + destruct (process_extends (Some t) ch IH (text ++ [LF])) as (d1 & ->).
      destruct (BLOCK_TAGS_REGEX t && negb (endsWith_LF _));
        eexists; rewrite <- !app_assoc; reflexivity.
    + destruct (process_extends (Some t) ch IH text) as (d1 & ->).
      destruct (BLOCK_TAGS_REGEX t && negb (endsWith_LF _));
        eexists; rewrite <- ?app_assoc; reflexivity.
Qed.

Lemma process_list_extends p ch text :
  exists delta, process p ch text = text ++ delta.
Proof.
  apply process_extends, Forall_forall. intros c _.
  apply process_node_extends.
Qed.

(** What follows a node in the loop is appended behind what the node
    left. *)
Lemma process_after p before c after text :
  exists delta,
    process p (before ++ c :: after) text
    = process_node p c (process p before text) ++ delta.
Proof.
  rewrite process_app, process_cons. apply process_list_extends.
Qed.

(** From the moment a text node is reached, the accumulator of that moment
    stays in front, followed by the chunk of the node. *)
Lemma reaches_chunk p n text q d acc :
  reaches p n text q d acc ->
  exists post, process_node p n text = acc ++ text_chunk q d acc ++ post.
Proof.
  induction 1 as [p d text
                 |p before c after text q d acc _ (post & IH)
                 |p before c after text q d acc _ (post & IH)
                 |p a before c after text q d acc _ (post & IH)
                 |p t a before c after text q d acc Hskip Hbr Htd _ (post & IH)].
  - exists []. now rewrite process_node_Text, app_nil_r.
  - rewrite process_node_CData.
    destruct (process_after None before c after text) as (delta & ->).
    rewrite IH. exists (post ++ delta). now rewrite <- !app_assoc.
  - rewrite process_node_Document.
    destruct (process_after None before c after text) as (delta & ->).
    rewrite IH. exists (post ++ delta). now rewrite <- !app_assoc.
  - rewrite process_node_Element.
    change (SKIP_TAGS_REGEX (js "td")) with false.
    change (streq (js "td") (js "br")) with false.
    change (streq (js "td") (js "td")) with true. cbn iota.
    destruct (process_after (Some (js "td")) before c after text)
      as (delta & ->).
    rewrite IH. exists (post ++ delta ++ [TAB]). now rewrite <- !app_assoc.
  - rewrite process_node_Element, Hskip, Hbr, Htd. cbv beta iota zeta.
    match goal with
    | |- context [process (Some t) (before ++ c :: after) ?text1] =>
        destruct (process_after (Some t) before c after text1) as (delta & E);
        assert (IH' : process_node (Some t) c (process (Some t) before text1)
                      = acc ++ text_chunk q d acc ++ post) by exact IH
    end.
    destruct (BLOCK_TAGS_REGEX t && negb (endsWith_LF _)).
    + exists (post ++ delta ++ [LF]). rewrite E, IH'.
      now rewrite <- !app_assoc.
    + exists (post ++ delta). rewrite E, IH'. now rewrite <- !app_assoc.
Qed.

(** Every text node the traversal visits is reached with some accumulator. *)
Lemma visits_reaches p n q d :
  visits p n q d -> forall text, exists acc, reaches p n text q d acc.
Proof.
  induction 1 as [p d|p ch c q d Hin _ IH|p ch c q d Hin _ IH
                  |p t a ch c q d Hskip Hbr Hin _ IH]; intros text.
  - exists text. constructor.
  - apply in_split in Hin as (l1 & l2 & ->).
    destruct (IH (process None l1 text)) as (acc & Hacc).
    exists acc. now constructor.
  - apply in_split in Hin as (l1 & l2 & ->).
    destruct (IH (process None l1 text)) as (acc & Hacc).
    exists acc. now constructor.
  - apply in_split in Hin as (l1 & l2 & ->).
    destruct (streq t (js "td")) eqn:Htd.
    + apply bool_decide_eq_true_1 in Htd. subst t.
      destruct (IH (process (Some (js "td")) l1 text)) as (acc & Hacc).
      exists acc. now constructor.
    + destruct (IH (process (Some t) l1
                      (if BLOCK_TAGS_REGEX t && negb (empty_or_ends_LF text)
                       then text ++ [LF] else text))) as (acc & Hacc).
      exists acc. now apply reaches_Element.
Qed.

(** C3 (amended).  A text node reached by the traversal appends one chunk
    to the accumulator [acc] of that moment: its character data as it is
    when its parent is a [pre] element, its whitespace-collapsed data
    otherwise; in both cases without the first code unit when that is a
    space and [acc] is empty or ends in whitespace.  What was accumulated
    and the chunk stay in front of all later output, and the result is the
    final accumulator trimmed. *)
Theorem text_node_contribution (load : jsstring -> CheerioAPI)
  (input : jsstring + CheerioAPI) (dollar : CheerioAPI)
  (before after : list Node) (n : Node)
  (q : option jsstring) (d acc : jsstring) :
  parsed load input = Some dollar ->
  start_nodes dollar = before ++ n :: after ->
  reaches None n (process None before []) q d acc ->
  exists raw chunk post,
    (q = Some (js "pre") -> raw = d)
    /\ (q <> Some (js "pre") -> raw = collapse d)
    /\ (if startsWith_space raw && empty_or_ends_space acc
        then raw = SPACE :: chunk else chunk = raw)
    /\ process None (start_nodes dollar) [] = acc ++ chunk ++ post
    /\ htmlToText load input = trim (acc ++ chunk ++ post).
Proof.
  intros Hdoc Hstart Hreach.
  destruct (reaches_chunk _ _ _ _ _ _ Hreach) as (post & E).
  destruct (process_after None before n after []) as (delta & E').
  assert (Eacc : process None (start_nodes dollar) []
                 = acc ++ text_chunk q d acc ++ post ++ delta).
  { rewrite Hstart, E', E. now rewrite <- !app_assoc. }
  exists (if bool_decide (q = Some (js "pre")) then d else collapse d),
    (text_chunk q d acc), (post ++ delta).
  split; [intros Hq; now rewrite bool_decide_eq_true_2|].
  split; [intros Hq; now rewrite bool_decide_eq_false_2|].
  split.
  { unfold text_chunk.
    destruct (startsWith_space _ && _) eqn:Hs; [|reflexivity].
    apply andb_prop in Hs as [Hs _].
    destruct (if bool_decide (q = Some (js "pre")) then d else collapse d)
      as [|c raw]; [discriminate|].
    cbn in Hs. apply N.eqb_eq in Hs. now subst c. }
  split; [exact Eacc|].
  rewrite (htmlToText_parsed load input dollar Hdoc). now rewrite Eacc.
Qed.

Lemma text_node_contribution_witness :
  exists raw chunk post,
    (Some (js "pre") = Some (js "pre") -> raw = js " x")
    /\ (Some (js "pre") <> Some (js "pre") -> raw = collapse (js " x"))
    /\ (if startsWith_space raw && empty_or_ends_space (js "a" ++ [LF])
        then raw = SPACE :: chunk else chunk = raw)
    /\ process None (start_nodes pre_page) []
       = (js "a" ++ [LF]) ++ chunk ++ post
    /\ htmlToText load_sample (inr pre_page)
       = trim ((js "a" ++ [LF]) ++ chunk ++ post).
Proof.
  apply (text_node_contribution load_sample (inr pre_page) pre_page
           [] [] (el "body" [Text (js "a"); el "pre" [Text (js " x")]])
           (Some (js "pre")) (js " x") (js "a" ++ [LF])).
  - reflexivity.
  - reflexivity.
  - apply (reaches_Element None (js "body") ∅ [Text (js "a")]
             (el "pre" [Text (js " x")]) []); [reflexivity ..|].
    apply (reaches_Element (Some (js "body")) (js "pre") ∅ []
             (Text (js " x")) []); [reflexivity ..|].
    apply reaches_Text.
Defined.

(** C3 as stated fails: in [<body>a<pre> x</pre></body>] the text node
    below [pre] has the data [" x"], and neither the accumulator nor the
    result holds that data: the leading space is dropped after the line
    feed that opens the block. *)
Lemma pre_text_counterexample :
  (exists n, In n (start_nodes pre_page)
             /\ visits None n (Some (js "pre")) (js " x"))
  /\ process None (start_nodes pre_page) [] = js "a" ++ [LF] ++ js "x" ++ [LF]
  /\ htmlToText load_sample (inr pre_page) = js "a" ++ [LF] ++ js "x"
  /\ ~ infix (js " x") (process None (start_nodes pre_page) [])
  /\ ~ infix (js " x") (htmlToText load_sample (inr pre_page)).
Proof.
  split; [|repeat split; try apply includes_false; vm_compute; reflexivity].
  exists (el "body" [Text (js "a"); el "pre" [Text (js " x")]]).
  split; [left; reflexivity|].
  apply (visits_Element None (js "body") ∅ _ (el "pre" [Text (js " x")]));
    [reflexivity|reflexivity|right; left; reflexivity|].
  apply (visits_Element (Some (js "body")) (js "pre") ∅ _ (Text (js " x")));
    [reflexivity|reflexivity|left; reflexivity|].
  apply visits_Text.
Qed.

(** ** The result is trimmed *)

Lemma htmlToText_inl load html :
  html <> [] ->
  htmlToText load (inl html) = trim (process None (start_nodes (load html)) []).
Proof. intros H. destruct html; [congruence|reflexivity]. Qed.

Lemma trimStart_head s c s' : trimStart s = c :: s' -> is_space c = false.
Proof.
  induction s as [|a s IH]; [discriminate|]. cbn [trimStart].
  destruct (is_space a) eqn:Ha; [exact IH|]. now intros [= <- <-].
Qed.

Lemma trim_last s c : last_unit (trim s) = Some c -> is_space c = false.
Proof.
  unfold trim, trimEnd.
  destruct (trimStart (rev (trimStart s))) as [|a t] eqn:E; [discriminate|].
  cbn [rev]. rewrite last_unit_snoc. intros [= <-].
  now apply trimStart_head in E.
Qed.

(** The returned text never ends in whitespace, so never in a line break. *)
Lemma htmlToText_no_trailing_space load input c :
  last_unit (htmlToText load input) = Some c -> is_space c = false.
Proof.
  destruct input as [[|a html]|dollar]; cbn [htmlToText];
    [discriminate|apply trim_last|apply trim_last].
Qed.

(** C4 (amended).  On [<table><tr><td>A</td><td>B</td></tr></table>],
    parsed as a page (with the implied html, head, body and tbody) or as a
    fragment, the accumulator ends up as A, tab, B, tab, line feed, and the
    result is exactly A, tab, B: the tab of the last cell and the line feed
    that closes the row are trimmed away. *)
Theorem table_row_text (load : jsstring -> CheerioAPI) :
  load table_html = table_page \/ load table_html = table_fragment ->
  process None (start_nodes (load table_html)) []
    = js "A" ++ [TAB] ++ js "B" ++ [TAB; LF]
  /\ htmlToText load (inl table_html) = js "A" ++ [TAB] ++ js "B".
Proof.
  intros H. rewrite htmlToText_inl by discriminate.
  destruct H as [-> | ->]; split; vm_compute; reflexivity.
Qed.

Lemma table_row_text_witness :
  htmlToText load_sample (inl table_html) = js "A" ++ [TAB] ++ js "B".
Proof.
  apply (table_row_text load_sample). left. vm_compute. reflexivity.
Defined.

(** C4 as stated fails: the result holds A, tab, B but no line break after
    it (and none at all). *)
Lemma table_row_counterexample :
  htmlToText load_sample (inl table_html) = js "A" ++ [TAB] ++ js "B"
  /\ ~ infix (js "A" ++ [TAB] ++ js "B" ++ [LF])
         (htmlToText load_sample (inl table_html))
  /\ ~ In LF (htmlToText load_sample (inl table_html)).
Proof.
  split; [vm_compute; reflexivity|]. split.
  - apply includes_false. vm_compute. reflexivity.
  - vm_compute. intros [H|[H|[H|[]]]]; discriminate H.
Qed.

(** ** The scheme test *)




(** ** The link extractor *)

Lemma truthy_true s : truthy s = true <-> s <> [].
Proof. destruct s; cbn; split; congruence. Qed.

Lemma truthy_false s : truthy s = false <-> s = [].
Proof. destruct s; cbn; split; congruence. Qed.

Lemma isHrefAbsolute_truthy href : isHrefAbsolute href = true -> truthy href = true.
Proof. now destruct href. Qed.

(** The collected hrefs are the non-empty href attributes of the matched
    nodes. *)
Lemma in_map_href matched href :
  In href (map_href matched) <->
  exists el, In el matched /\ attr [el] (js "href") = Some href.
Proof.
  induction matched as [|e matched IH]; cbn [map_href].
  - split; [intros []|intros (el & [] & _)].
  - destruct (attr [e] (js "href")) as [h|] eqn:E.
    + cbn [In]. rewrite IH. split.
      * intros [<- | (el & Hin & Hel)]; [exists e; auto|exists el; auto].
      * intros (el & [<- | Hin] & Hel); [left; congruence|right; eauto].
    + rewrite IH. split.
      * intros (el & Hin & Hel). exists el. cbn [In]. auto.
      * intros (el & [<- | Hin] & Hel); [congruence|eauto].
Qed.

Lemma in_collected_hrefs dollar selector href :
  In href (collected_hrefs dollar selector) <->
  exists el, In el (select dollar selector)
             /\ attr [el] (js "href") = Some href /\ href <> [].
Proof.
  unfold collected_hrefs, filter_Boolean.
  rewrite filter_In, in_map_href, truthy_true. firstorder.
Qed.

Lemma array_map_cons {A B} (f : A -> Result B) a l :
  array_map f (a :: l) =
    match f a with
    | Return b =>
        match array_map f l with
        | Return bs => Return (b :: bs)
        | Throw m => Throw m
        end
    | Throw m => Throw m
    end.
Proof. reflexivity. Qed.

Lemma in_filter_Boolean_opt u l :
  In u (filter_Boolean_opt l) <-> In (Some u) l /\ truthy u = true.
Proof.
  induction l as [|[s|] l IH]; cbn [filter_Boolean_opt In].
  - tauto.
  - destruct (truthy s) eqn:Hs; cbn [In]; rewrite IH; split.
    + intros [<- | [H1 H2]]; auto.
    + intros [[[= <-] | H1] H2]; auto.
    + intros [H1 H2]; auto.
    + intros [[[= <-] | H1] H2]; [congruence|auto].
  - rewrite IH. split; [intros [H1 H2]; auto|].
    intros [[H | H1] H2]; [discriminate|auto].
Qed.

Section LinkFacts.

Variable tryAbsoluteURL : jsstring -> jsstring -> option jsstring.

Lemma extractUrlsFromCheerio_unfold dollar selector baseUrl :
  extractUrlsFromCheerio tryAbsoluteURL dollar selector baseUrl =
    match array_map (resolve_href tryAbsoluteURL
                       (effective_baseUrl tryAbsoluteURL dollar baseUrl))
                    (collected_hrefs dollar selector) with
    | Return urls => Return (filter_Boolean_opt urls)
    | Throw m => Throw m
    end.
Proof. reflexivity. Qed.

(** With a base URL every href goes through the resolver and nothing is
    thrown. *)
Lemma array_map_resolve_with_base base hrefs :
  truthy base = true ->
  array_map (resolve_href tryAbsoluteURL base) hrefs
  = Return (map (fun href => tryAbsoluteURL href base) hrefs).
Proof.
  intros Hb. induction hrefs as [|h hrefs IH]; [reflexivity|].
  rewrite array_map_cons, IH. unfold resolve_href. rewrite Hb.
  now rewrite andb_false_r.
Qed.

(** Without one, absolute hrefs are kept as they are up to the first
    href that is not absolute, which is thrown. *)
Lemma array_map_resolve_without_base hrefs :
  match array_map (resolve_href tryAbsoluteURL []) hrefs with
  | Return urls =>
      forallb isHrefAbsolute hrefs = true /\ urls = map Some hrefs
  | Throw m =>
      exists pre h post,
        hrefs = pre ++ h :: post
        /\ forallb isHrefAbsolute pre = true
        /\ isHrefAbsolute h = false
        /\ m = relative_url_error h
  end.
Proof.
  induction hrefs as [|h hrefs IH]; [now split|].
  rewrite array_map_cons. unfold resolve_href at 1. cbn [truthy negb].
  rewrite andb_true_r. destruct (isHrefAbsolute h) eqn:Hh; cbn [negb].
  - destruct (array_map _ hrefs) as [urls|m].
    + destruct IH as [Hall ->]. cbn. now rewrite Hh, Hall.
    + destruct IH as (pre & h' & post & -> & Hpre & Hh' & ->).
      exists (h :: pre), h', post. cbn. now rewrite Hh, Hpre.
  - exists [], h, hrefs. now repeat split.
Qed.

Lemma effective_baseUrl_truthy dollar baseUrl :
  truthy baseUrl = true ->
  truthy (effective_baseUrl tryAbsoluteURL dollar baseUrl) = true.
Proof.
  intros Hb. unfold effective_baseUrl.
  destruct (absoluteBaseUrl _ _ _) as [u|]; [|exact Hb].
  now destruct (truthy u) eqn:Hu.
Qed.

Lemma extract_with_base dollar selector baseUrl :
  truthy (effective_baseUrl tryAbsoluteURL dollar baseUrl) = true ->
  extractUrlsFromCheerio tryAbsoluteURL dollar selector baseUrl
  = Return (filter_Boolean_opt
              (map (fun href =>
                      tryAbsoluteURL href
                        (effective_baseUrl tryAbsoluteURL dollar baseUrl))
                   (collected_hrefs dollar selector))).
Proof.
  intros Hb. rewrite extractUrlsFromCheerio_unfold.
  now rewrite array_map_resolve_with_base.
Qed.

End LinkFacts.

Lemma first_failing_unique {A} (f : A -> bool) pre h post pre' h' post' :
  pre ++ h :: post = pre' ++ h' :: post' ->
  forallb f pre = true -> f h = false ->
  forallb f pre' = true -> f h' = false ->
  h = h'.
Proof.
  revert pre'. induction pre as [|a pre IH]; intros [|a' pre'] E Hp Hh Hp' Hh';
    cbn in E, Hp, Hp'; injection E as E1 E2.
  - exact E1.
  - subst a'. apply andb_prop in Hp' as [Ha _]. congruence.
  - subst a. apply andb_prop in Hp as [Ha _]. congruence.
  - apply andb_prop in Hp as [_ Hp]. apply andb_prop in Hp' as [_ Hp'].
    now apply (IH pre').
Qed.

(** C1 (amended).  With a non-empty [baseUrl] the call returns, and every
    collected href, absolute or not, is handed to [tryAbsoluteURL] together
    with the effective base URL: a matched absolute href shows in the result
    as the resolver's answer for it (when that is a non-empty string), so as
    the original string when the resolver answers with it unchanged. *)
Theorem absolute_href_is_resolved
  (tryAbsoluteURL : jsstring -> jsstring -> option jsstring)
  (dollar : CheerioAPI) (selector baseUrl : jsstring)
  (el : Node) (href : jsstring) :
  baseUrl <> [] ->
  In el (select dollar selector) ->
  attr [el] (js "href") = Some href ->
  isHrefAbsolute href = true ->
  let base := effective_baseUrl tryAbsoluteURL dollar baseUrl in
  exists urls,
    extractUrlsFromCheerio tryAbsoluteURL dollar selector baseUrl = Return urls
    /\ urls = filter_Boolean_opt
                (map (fun h => tryAbsoluteURL h base)
                     (collected_hrefs dollar selector))
    /\ (forall u, tryAbsoluteURL href base = Some u -> u <> [] -> In u urls)
    /\ (tryAbsoluteURL href base = Some href -> In href urls).
Proof.
  intros Hb Hin Hattr Habs base.
  assert (Hbase : truthy base = true).
  { apply effective_baseUrl_truthy. now apply truthy_true. }
  assert (Hcol : In href (collected_hrefs dollar selector)).
  { apply in_collected_hrefs. exists el. repeat split; try assumption.
    now apply truthy_true, isHrefAbsolute_truthy. }
  assert (Hres : forall u, tryAbsoluteURL href base = Some u -> u <> [] ->
            In u (filter_Boolean_opt
                    (map (fun h => tryAbsoluteURL h base)
                         (collected_hrefs dollar selector)))).
  { intros u Hu Hne. apply in_filter_Boolean_opt.
    split; [|now apply truthy_true]. rewrite <- Hu.
    now apply (in_map (fun h => tryAbsoluteURL h base)). }
  eexists. split; [now apply extract_with_base|].
  split; [reflexivity|]. split; [exact Hres|].
  intros Hu. apply Hres; [exact Hu|].
  now apply truthy_true, isHrefAbsolute_truthy.
Qed.

Lemma absolute_href_is_resolved_witness :
  exists urls,
    extractUrlsFromCheerio url_parser absolute_link (js "a")
      (js "https://example.com/") = Return urls
    /\ In (js "https://x.com/") urls.
Proof.
  destruct (absolute_href_is_resolved url_parser absolute_link (js "a")
              (js "https://example.com/")
              (el_href "a" "https://x.com" [Text (js "x")])
              (js "https://x.com"))
    as (urls & E & _ & H & _).
  - discriminate.
  - left. reflexivity.
  - reflexivity.
  - reflexivity.
  - exists urls. split; [exact E|]. apply H; [reflexivity|discriminate].
Defined.

(** C1 as stated fails: with the base URL [https://example.com/] the
    absolute href [https://x.com] is returned as the parser serialises it,
    [https://x.com/], and the original string is not in the result. *)
Lemma absolute_href_counterexample :
  js "https://example.com/" <> []
  /\ (exists el, In el (select absolute_link (js "a"))
                 /\ attr [el] (js "href") = Some (js "https://x.com"))
  /\ isHrefAbsolute (js "https://x.com") = true
  /\ extractUrlsFromCheerio url_parser absolute_link (js "a")
       (js "https://example.com/") = Return [js "https://x.com/"]
  /\ ~ In (js "https://x.com") [js "https://x.com/"].
Proof.
  split; [discriminate|]. split.
  { exists (el_href "a" "https://x.com" [Text (js "x")]).
    split; [left|]; reflexivity. }
  split; [reflexivity|]. split; [vm_compute; reflexivity|].
  intros [H|[]]. vm_compute in H. discriminate H.
Qed.

(** C2 (amended).  When the effective base URL is empty and some matched
    element has a non-empty href that is not absolute, the call throws and
    returns no sequence.  The error names the first such href in document
    order (so that very href when no earlier one is relative), every href
    before it being absolute. *)
Theorem relative_href_without_base_throws
  (tryAbsoluteURL : jsstring -> jsstring -> option jsstring)
  (dollar : CheerioAPI) (selector baseUrl : jsstring)
  (el : Node) (href : jsstring) :
  effective_baseUrl tryAbsoluteURL dollar baseUrl = [] ->
  In el (select dollar selector) ->
  attr [el] (js "href") = Some href ->
  href <> [] ->
  isHrefAbsolute href = false ->
  exists pre h post,
    collected_hrefs dollar selector = pre ++ h :: post
    /\ forallb isHrefAbsolute pre = true
    /\ isHrefAbsolute h = false
    /\ extractUrlsFromCheerio tryAbsoluteURL dollar selector baseUrl
       = Throw (relative_url_error h)
    /\ infix h (relative_url_error h)
    /\ (forall urls,
          extractUrlsFromCheerio tryAbsoluteURL dollar selector baseUrl
          <> Return urls)
    /\ (forall pre' post',
          collected_hrefs dollar selector = pre' ++ href :: post' ->
          forallb isHrefAbsolute pre' = true -> h = href).
Proof.
  intros Hbase Hin Hattr Hne Hrel.
  assert (Hcol : In href (collected_hrefs dollar selector)).
  { apply in_collected_hrefs. now exists el. }
  rewrite extractUrlsFromCheerio_unfold, Hbase.
  pose proof (array_map_resolve_without_base tryAbsoluteURL
                (collected_hrefs dollar selector)) as H.
  destruct (array_map _ _) as [urls|m].
  - destruct H as [Hall _]. rewrite forallb_forall in Hall.
    specialize (Hall href Hcol). congruence.
  - destruct H as (pre & h & post & E & Hpre & Hh & ->).
    exists pre, h, post. repeat split; try assumption.
    + eexists _, _. unfold relative_url_error. reflexivity.
    + discriminate.
    + intros pre' post' E' Hpre'. rewrite E in E'.
      now apply (first_failing_unique isHrefAbsolute pre h post pre' href post').
Qed.

Lemma relative_href_without_base_throws_witness :
  extractUrlsFromCheerio url_parser mixed_links (js "a") []
  = Throw (relative_url_error (js "/x")).
Proof.
  destruct (relative_href_without_base_throws url_parser mixed_links (js "a")
              [] (el_href "a" "/x" []) (js "/x"))
    as (pre & h & post & E & Hpre & Hh & Hthrow & _ & _ & Hfirst).
  - reflexivity.
  - right. left. reflexivity.
  - reflexivity.
  - discriminate.
  - reflexivity.
  - rewrite Hthrow.
    rewrite (Hfirst [js "https://x.com"] [js "/y"]); reflexivity.
Defined.

(** C2 as stated fails: in [<a href="https://x.com"><a href="/x">
    <a href="/y">] without a base URL the third anchor has a non-empty href
    that is not absolute, and the error thrown is the one of [/x]: it does
    not name [/y]. *)
Lemma later_relative_href_counterexample :
  effective_baseUrl url_parser mixed_links [] = []
  /\ (exists el, In el (select mixed_links (js "a"))
                 /\ attr [el] (js "href") = Some (js "/y"))
  /\ js "/y" <> []
  /\ isHrefAbsolute (js "/y") = false
  /\ extractUrlsFromCheerio url_parser mixed_links (js "a") []
     = Throw (relative_url_error (js "/x"))
  /\ extractUrlsFromCheerio url_parser mixed_links (js "a") []
     <> Throw (relative_url_error (js "/y"))
  /\ ~ infix (js "/y") (relative_url_error (js "/x")).
Proof.
  split; [reflexivity|]. split.
  { exists (el_href "a" "/y" []).
    split; [right; right; left|]; reflexivity. }
  split; [discriminate|]. split; [reflexivity|].
  split; [vm_compute; reflexivity|]. split.
  - vm_compute. discriminate.
  - apply includes_false. vm_compute. reflexivity.
Qed.

(** C8 (amended).  When the first [base] element of the document has a
    non-empty href: if [tryAbsoluteURL] resolves it against the caller's
    [baseUrl] to a non-empty value, that value is the base URL every
    collected href is resolved against; if it yields no value, the caller's
    [baseUrl] stays in force and the call goes on to the links as it would
    without the [base] element. *)
Theorem base_element_override
  (tryAbsoluteURL : jsstring -> jsstring -> option jsstring)
  (dollar : CheerioAPI) (selector baseUrl base : jsstring) :
  attr (select dollar (js "base")) (js "href") = Some base ->
  base <> [] ->
  (forall u, tryAbsoluteURL base baseUrl = Some u -> u <> [] ->
     effective_baseUrl tryAbsoluteURL dollar baseUrl = u
     /\ extractUrlsFromCheerio tryAbsoluteURL dollar selector baseUrl
        = Return (filter_Boolean_opt
                    (map (fun href => tryAbsoluteURL href u)
                         (collected_hrefs dollar selector))))
  /\ (tryAbsoluteURL base baseUrl = None ->
      effective_baseUrl tryAbsoluteURL dollar baseUrl = baseUrl
      /\ extractUrlsFromCheerio tryAbsoluteURL dollar selector baseUrl
         = match array_map (resolve_href tryAbsoluteURL baseUrl)
                   (collected_hrefs dollar selector) with
           | Return urls => Return (filter_Boolean_opt urls)
           | Throw m => Throw m
           end).
Proof.
  intros Hattr Hne. apply truthy_true in Hne.
  assert (Habs : absoluteBaseUrl tryAbsoluteURL dollar baseUrl
                 = tryAbsoluteURL base baseUrl).
  { unfold absoluteBaseUrl. now rewrite Hattr, Hne. }
  split.
  - intros u Hu Hu'. apply truthy_true in Hu'.
    assert (E : effective_baseUrl tryAbsoluteURL dollar baseUrl = u).
    { unfold effective_baseUrl. now rewrite Habs, Hu, Hu'. }
    split; [exact E|]. rewrite extract_with_base; rewrite E; auto.
  - intros Hnone.
    assert (E : effective_baseUrl tryAbsoluteURL dollar baseUrl = baseUrl).
    { unfold effective_baseUrl. now rewrite Habs, Hnone. }
    split; [exact E|]. now rewrite extractUrlsFromCheerio_unfold, E.
Qed.

Lemma base_element_override_witness :
  effective_baseUrl url_parser based_link (js "https://example.com/")
  = js "https://other.com/"
  /\ extractUrlsFromCheerio url_parser based_link (js "a")
       (js "https://example.com/")
     = Return [js "https://other.com/x"].
Proof.
  destruct (base_element_override url_parser based_link (js "a")
              (js "https://example.com/") (js "https://other.com/"))
    as [H _].
  - reflexivity.
  - discriminate.
  - destruct (H (js "https://other.com/")) as [E1 E2].
    + reflexivity.
    + discriminate.
    + split; [exact E1|]. rewrite E2. vm_compute. reflexivity.
Defined.

(** C8 as stated fails: in [<base target="_blank">
    <base href="https://other.com/">] the document holds a base element
    with an href that resolves, and the caller's base URL stays in force,
    the href being read from the first base element only. *)
Lemma first_base_counterexample :
  (exists b, In b (select two_bases (js "base"))
             /\ attr [b] (js "href") = Some (js "https://other.com/"))
  /\ url_parser (js "https://other.com/") (js "https://example.com/")
     = Some (js "https://other.com/")
  /\ effective_baseUrl url_parser two_bases (js "https://example.com/")
     = js "https://example.com/"
  /\ js "https://example.com/" <> js "https://other.com/"
  /\ extractUrlsFromCheerio url_parser two_bases (js "a")
       (js "https://example.com/")
     = Return [js "https://example.com/x"].
Proof.
  split.
  { exists (el_href "base" "https://other.com/" []).
    split; [right; left|]; reflexivity. }
  repeat split; try (vm_compute; reflexivity). vm_compute. discriminate.
Qed.

(** C9.  Only a matched element with a non-empty href that is not absolute
    can make the call throw; and when every matched element lacks the href
    or has the empty one, the call returns the empty sequence, whatever
    [baseUrl] is. *)
Theorem hrefless_elements_are_discarded
  (tryAbsoluteURL : jsstring -> jsstring -> option jsstring)
  (dollar : CheerioAPI) (selector baseUrl : jsstring) :
  (forall m,
     extractUrlsFromCheerio tryAbsoluteURL dollar selector baseUrl = Throw m ->
     exists el href,
       In el (select dollar selector)
       /\ attr [el] (js "href") = Some href
       /\ href <> [] /\ isHrefAbsolute href = false
       /\ m = relative_url_error href)
  /\ ((forall el, In el (select dollar selector) ->
         attr [el] (js "href") = None \/ attr [el] (js "href") = Some []) ->
      collected_hrefs dollar selector = []
      /\ extractUrlsFromCheerio tryAbsoluteURL dollar selector baseUrl
         = Return []).
Proof.
  split.
  - intros m. rewrite extractUrlsFromCheerio_unfold.
    destruct (truthy (effective_baseUrl tryAbsoluteURL dollar baseUrl)) eqn:Hb.
    + now rewrite array_map_resolve_with_base.
    + apply truthy_false in Hb. rewrite Hb.
      pose proof (array_map_resolve_without_base tryAbsoluteURL
                    (collected_hrefs dollar selector)) as H.
      destruct (array_map _ _) as [urls|m']; [discriminate|].
      intros [= ->]. destruct H as (pre & h & post & E & _ & Hh & ->).
      assert (Hin : In h (collected_hrefs dollar selector)).
      { rewrite E. apply in_or_app. right. now left. }
      apply in_collected_hrefs in Hin as (el & Hin & Hattr & Hne).
      now exists el, h.
  - intros Hall.
    assert (E : collected_hrefs dollar selector = []).
    { destruct (collected_hrefs dollar selector) as [|h l] eqn:E;
        [reflexivity|].
      assert (Hin : In h (collected_hrefs dollar selector))
        by (rewrite E; now left).
      apply in_collected_hrefs in Hin as (el & Hin & Hattr & Hne).
      destruct (Hall el Hin); congruence. }
    split; [exact E|]. rewrite extractUrlsFromCheerio_unfold, E. reflexivity.
Qed.

Lemma hrefless_elements_are_discarded_witness :
  extractUrlsFromCheerio url_parser hrefless_links (js "a") [] = Return [].
Proof.
  apply (hrefless_elements_are_discarded url_parser hrefless_links (js "a") []).
  intros el [<- | [<- | []]]; [left|right]; reflexivity.
Defined.


(** ** Worked examples *)

Example body_text :
  htmlToText load_sample (inr (page [] [Text (js "Some text")]))
  = js "Some text".
Proof. vm_compute. reflexivity. Qed.

Example empty_input : htmlToText load_sample (inl []) = [].
Proof. reflexivity. Qed.

Example head_text_is_left_out :
  htmlToText load_sample (inr title_page) = js "x".
Proof. vm_compute. reflexivity. Qed.

Example three_line_breaks :
  htmlToText load_sample (inr br3_page) = js "a" ++ [LF; LF; LF] ++ js "b".
Proof. vm_compute. reflexivity. Qed.

Example nested_blocks_text :
  htmlToText load_sample (inr nested_blocks)
  = js "a" ++ [LF] ++ js "b" ++ [LF] ++ js "c".
Proof. vm_compute. reflexivity. Qed.

Example relative_link_with_base :
  extractUrlsFromCheerio url_parser relative_link (js "a")
    (js "https://example.com/")
  = Return [js "https://example.com/x"].
Proof. vm_compute. reflexivity. Qed.

Example relative_link_without_base :
  extractUrlsFromCheerio url_parser relative_link (js "a") []
  = Throw (relative_url_error (js "/x")).
Proof. vm_compute. reflexivity. Qed.

Example absolute_link_without_base :
  extractUrlsFromCheerio url_parser absolute_link (js "a") []
  = Return [js "https://x.com"].
Proof. vm_compute. reflexivity. Qed.

Example unresolved_base_is_ignored :
  extractUrlsFromCheerio url_parser bad_base (js "a")
    (js "https://example.com/")
  = Return [js "https://example.com/x"].
Proof. vm_compute. reflexivity. Qed.

(** * Further properties of the text extractor *)

(** ** The result has no whitespace at its ends *)

Lemma trimStart_snoc_nonspace l c :
  is_space c = false -> trimStart (l ++ [c]) = trimStart l ++ [c].
Proof.
  intros Hc. induction l as [|a l IH]; cbn [app trimStart].
  - now rewrite Hc.
  - now destruct (is_space a).
Qed.

Lemma trim_first s c : head (trim s) = Some c -> is_space c = false.
Proof.
  unfold trim, trimEnd.
  destruct (trimStart s) as [|a t] eqn:E; [discriminate|].
  pose proof (trimStart_head s a t E) as Ha.
  cbn [rev]. rewrite (trimStart_snoc_nonspace _ _ Ha), rev_app_distr.
  cbn. now intros [= <-].
Qed.

(** Whatever the input, the returned text neither begins nor ends with a
    whitespace code unit. *)
Theorem htmlToText_is_trimmed (load : jsstring -> CheerioAPI)
  (input : jsstring + CheerioAPI) :
  (forall c, head (htmlToText load input) = Some c -> is_space c = false)
  /\ (forall c, last_unit (htmlToText load input) = Some c ->
                is_space c = false).
Proof.
  destruct input as [[|a html]|dollar]; cbn [htmlToText]; split; intros c;
    try discriminate; try apply trim_first; apply trim_last.
Qed.

Lemma htmlToText_is_trimmed_witness :
  is_space 83 = false /\ is_space 116 = false.
Proof.
  destruct (htmlToText_is_trimmed load_sample (inr inline_page)) as [H1 H2].
  split; [apply H1|apply H2]; vm_compute; reflexivity.
Defined.

(** ** Only whitespace is changed *)

Lemma nonspace_app s t : nonspace (s ++ t) = nonspace s ++ nonspace t.
Proof. unfold nonspace. apply List.filter_app. Qed.

Lemma nonspace_replace_ws b d : nonspace (replace_ws b d) = nonspace d.
Proof.
  revert b. induction d as [|c d IH]; intros b; [reflexivity|].
  cbn [replace_ws nonspace List.filter]. destruct (is_space c) eqn:Hc.
  - cbn [negb]. destruct b; [apply IH|].
    cbn [List.filter]. change (is_space SPACE) with true. cbn [negb]. apply IH.
  - cbn [List.filter negb]. rewrite Hc. cbn [negb]. f_equal. apply IH.
Qed.

Lemma nonspace_text_chunk p d text : nonspace (text_chunk p d text) = nonspace d.
Proof.
  unfold text_chunk.
  assert (H : nonspace (if bool_decide (p = Some (js "pre"))
                        then d else collapse d) = nonspace d).
  { destruct (bool_decide _); [reflexivity|apply nonspace_replace_ws]. }
  destruct (startsWith_space _ && _) eqn:Hs; [|exact H].
  apply andb_prop in Hs as [Hs _]. rewrite <- H.
  destruct (if bool_decide (p = Some (js "pre")) then d else collapse d)
    as [|c raw]; [reflexivity|].
  cbn in Hs. apply N.eqb_eq in Hs. subst c. reflexivity.
Qed.

Lemma nonspace_trimStart s : nonspace (trimStart s) = nonspace s.
Proof.
  induction s as [|c s IH]; [reflexivity|]. cbn [trimStart].
  destruct (is_space c) eqn:Hc; [|reflexivity].
  rewrite IH. cbn [nonspace List.filter]. now rewrite Hc.
Qed.

Lemma nonspace_rev s : nonspace (rev s) = rev (nonspace s).
Proof.
  induction s as [|c s IH]; [reflexivity|].
  cbn [rev]. rewrite nonspace_app, IH. cbn [nonspace List.filter].
  destruct (negb (is_space c)); cbn [rev]; [reflexivity|].
  now rewrite app_nil_r.
Qed.

Lemma nonspace_trim s : nonspace (trim s) = nonspace s.
Proof.
  unfold trim, trimEnd.
  rewrite nonspace_rev, nonspace_trimStart, nonspace_rev, rev_involutive.
  apply nonspace_trimStart.
Qed.

Lemma process_nonspace p ch :
  Forall (fun c => forall q text,
            nonspace (process_node q c text)
            = nonspace text ++ nonspace (visibleText c)) ch ->
  forall text,
    nonspace (process p ch text)
    = nonspace text ++ nonspace (flat_map visibleText ch).
Proof.
  induction 1 as [|c ch Hc _ IH]; intros text.
  - cbn. now rewrite app_nil_r.
  - rewrite process_cons, IH, Hc. cbn [flat_map].
    now rewrite nonspace_app, app_assoc.
Qed.

Lemma process_node_nonspace elem :
  forall p text,
    nonspace (process_node p elem text)
    = nonspace text ++ nonspace (visibleText elem).
Proof.
  induction elem as [d|d|n d|ch IH|ch IH|t a ch IH] using Node_children_ind;
    intros p text.
  - rewrite process_node_Text, nonspace_app. f_equal.
    apply nonspace_text_chunk.
  - cbn. now rewrite app_nil_r.
  - cbn. now rewrite app_nil_r.
  - rewrite process_node_CData. now apply process_nonspace.
  - rewrite process_node_Document. now apply process_nonspace.
  - rewrite process_node_Element. cbn [visibleText].
    destruct (SKIP_TAGS_REGEX t); [cbn; now rewrite app_nil_r|].
    destruct (streq t (js "br"));
      [cbn [orb]; rewrite nonspace_app; reflexivity|].
    cbn [orb].
    destruct (streq t (js "td")).
    { rewrite nonspace_app, (process_nonspace (Some t) ch IH).
      cbn. now rewrite app_nil_r. }
    cbn zeta.
    set (text1 := if BLOCK_TAGS_REGEX t && negb (empty_or_ends_LF text)
                  then text ++ [LF] else text).
    assert (H1 : nonspace text1 = nonspace text).
    { subst text1. destruct (_ && _); [|reflexivity].
      rewrite nonspace_app. cbn. now rewrite app_nil_r. }
    destruct (BLOCK_TAGS_REGEX t && negb (endsWith_LF _)).
    + rewrite nonspace_app, (process_nonspace (Some t) ch IH), H1.
      cbn. now rewrite app_nil_r.
    + now rewrite (process_nonspace (Some t) ch IH), H1.
Qed.

(** The extractor changes whitespace only: the non-whitespace code units of
    the result are those of the text nodes the traversal reaches, in
    document order, none lost and none added. *)
Theorem htmlToText_keeps_nonspace (load : jsstring -> CheerioAPI)
  (input : jsstring + CheerioAPI) (dollar : CheerioAPI) :
  parsed load input = Some dollar ->
  nonspace (htmlToText load input)
  = nonspace (flat_map visibleText (start_nodes dollar)).
Proof.
  intros Hdoc. rewrite (htmlToText_parsed load input dollar Hdoc).
  rewrite nonspace_trim, process_nonspace; [reflexivity|].
  apply Forall_forall. intros c _. apply process_node_nonspace.
Qed.

Lemma htmlToText_keeps_nonspace_witness :
  nonspace (htmlToText load_sample (inl table_html)) = js "AB".
Proof.
  rewrite (htmlToText_keeps_nonspace load_sample (inl table_html) table_page).
  - vm_compute. reflexivity.
  - vm_compute. reflexivity.
Defined.

(** ** Earlier output is never touched *)

(** Processing a node list only appends to the accumulator: what was
    emitted before stays as it is, at the front. *)
Theorem process_only_appends (p : option jsstring) (elems : list Node)
  (text : jsstring) :
  exists delta, process p elems text = text ++ delta.
Proof.
  revert text. induction elems as [|e elems IH]; intros text.
  - exists []. now rewrite app_nil_r.
  - rewrite process_cons.
    destruct (process_node_extends e p text) as (d1 & ->).
    destruct (IH (text ++ d1)) as (d2 & ->).
    exists (d1 ++ d2). now rewrite app_assoc.
Qed.

(** ** Comments and skipped elements can be removed beforehand *)

Lemma process_singleton p e text :
  process p [e] text = process_node p e text.
Proof. reflexivity. Qed.

Lemma process_prune p ch :
  Forall (fun c => forall q text,
            process q (prune c) text = process_node q c text) ch ->
  forall text, process p (flat_map prune ch) text = process p ch text.
Proof.
  induction 1 as [|c ch Hc _ IH]; intros text; [reflexivity|].
  cbn [flat_map]. rewrite process_app, Hc, process_cons. apply IH.
Qed.

Lemma process_node_prune elem :
  forall p text, process p (prune elem) text = process_node p elem text.
Proof.
  induction elem as [d|d|n d|ch IH|ch IH|t a ch IH] using Node_children_ind;
    intros p text; try reflexivity.
  - cbn [prune]. rewrite process_singleton, !process_node_CData.
    now apply process_prune.
  - cbn [prune]. rewrite process_singleton, !process_node_Document.
    now apply process_prune.
  - cbn [prune]. rewrite (process_node_Element p t a ch).
    destruct (SKIP_TAGS_REGEX t) eqn:Hskip; [reflexivity|].
    rewrite process_singleton, process_node_Element, Hskip.
    cbn zeta. now rewrite !(process_prune (Some t) ch IH).
Qed.

(** Deleting the comments and the skip-set elements (script, style, canvas,
    svg, noscript, in any letter case) from the start nodes before the call
    gives the same text. *)
Theorem pruning_keeps_text (load : jsstring -> CheerioAPI)
  (dollar pruned : CheerioAPI) :
  start_nodes pruned = flat_map prune (start_nodes dollar) ->
  htmlToText load (inr pruned) = htmlToText load (inr dollar).
Proof.
  intros E. cbn [htmlToText]. rewrite E. f_equal.
  apply process_prune, Forall_forall. intros c _ q text.
  apply process_node_prune.
Qed.

Lemma pruning_keeps_text_witness :
  htmlToText load_sample (inr quiet_page)
  = htmlToText load_sample (inr noisy_page).
Proof.
  apply (pruning_keeps_text load_sample noisy_page quiet_page).
  vm_compute. reflexivity.
Defined.

(** ** Inline elements are transparent *)

Lemma process_node_parent c p1 p2 text :
  bool_decide (p1 = Some (js "pre")) = bool_decide (p2 = Some (js "pre")) ->
  process_node p1 c text = process_node p2 c text.
Proof.
  intros H. destruct c; try reflexivity.
  rewrite !process_node_Text. unfold text_chunk. now rewrite H.
Qed.

Lemma process_parent ch p1 p2 text :
  bool_decide (p1 = Some (js "pre")) = bool_decide (p2 = Some (js "pre")) ->
  process p1 ch text = process p2 ch text.
Proof.
  intros H. revert text. induction ch as [|c ch IH]; intros text;
    [reflexivity|].
  rewrite !process_cons, (process_node_parent c p1 p2 text H). apply IH.
Qed.

(** An element that is neither in the block set nor in the skip set, and
    is no [br] and no [td], can be replaced by its children: outside [pre]
    the text is the same with and without the wrapper. *)
Theorem inline_element_is_transparent (p : option jsstring) (t : jsstring)
  (a : gmap jsstring jsstring) (ch before after : list Node)
  (text : jsstring) :
  BLOCK_TAGS_REGEX t = false ->
  SKIP_TAGS_REGEX t = false ->
  t <> js "br" -> t <> js "td" ->
  p <> Some (js "pre") ->
  process p (before ++ Element t a ch :: after) text
  = process p (before ++ ch ++ after) text.
Proof.
  intros Hblock Hskip Hbr Htd Hp.
  rewrite !process_app, process_cons. f_equal.
  rewrite process_node_Element, Hskip, Hblock.
  unfold streq. rewrite !bool_decide_eq_false_2 by assumption.
  cbn [andb]. cbn zeta. apply process_parent.
  rewrite !bool_decide_eq_false_2; [reflexivity|assumption|].
  intros [= ->]. discriminate Hblock.
Qed.

Lemma inline_element_is_transparent_witness :
  process None [Text (js "a "); el "span" [Text (js " b")]; Text (js "c")] []
  = process None [Text (js "a "); Text (js " b"); Text (js "c")] [].
Proof.
  apply (inline_element_is_transparent None (js "span") ∅ [Text (js " b")]
           [Text (js "a ")] [Text (js "c")] []);
    try reflexivity; discriminate.
Defined.

(** ** Whitespace outside [pre] *)

Lemma space_after_ws_app s t :
  space_after_ws (s ++ t)
  = space_after_ws s || (ends_ws s && startsWith_space t) || space_after_ws t.
Proof.
  induction s as [|a s IH]; [reflexivity|].
  cbn [app space_after_ws]. rewrite IH. unfold ends_ws.
  destruct s as [|b s]; cbn [app startsWith_space last_unit space_after_ws].
  - destruct (is_space a), (startsWith_space t), (space_after_ws t);
      reflexivity.
  - destruct (is_space a && (b =? SPACE)); reflexivity.
Qed.

Lemma startsWith_space_replace_ws d :
  startsWith_space (replace_ws true d) = false.
Proof.
  induction d as [|c d IH]; [reflexivity|]. cbn [replace_ws].
  destruct (is_space c) eqn:Hc; [exact IH|]. cbn [startsWith_space].
  apply N.eqb_neq. intros ->. discriminate Hc.
Qed.

Lemma space_after_ws_replace_ws b d : space_after_ws (replace_ws b d) = false.
Proof.
  revert b. induction d as [|c d IH]; intros b; [reflexivity|].
  cbn [replace_ws]. destruct (is_space c) eqn:Hc.
  - destruct b; [apply IH|]. cbn [space_after_ws].
    now rewrite startsWith_space_replace_ws, andb_false_r, IH.
  - cbn [space_after_ws]. now rewrite Hc, IH.
Qed.

Lemma ends_ws_empty_or_ends_space text :
  ends_ws text = true -> empty_or_ends_space text = true.
Proof. unfold ends_ws, empty_or_ends_space. now destruct (last_unit text). Qed.

Lemma text_chunk_replace_ws p d text :
  p <> Some (js "pre") ->
  text_chunk p d text = replace_ws (empty_or_ends_space text) d.
Proof.
  intros Hp. unfold text_chunk. rewrite bool_decide_eq_false_2 by assumption.
  apply strip_leading_space.
Qed.

Lemma normal_ws_nil : normal_ws [].
Proof. split; [reflexivity|constructor]. Qed.

Lemma normal_ws_app_chunk p d text :
  p <> Some (js "pre") -> normal_ws text ->
  normal_ws (text ++ text_chunk p d text).
Proof.
  intros Hp [H1 H2]. rewrite text_chunk_replace_ws by assumption. split.
  - rewrite space_after_ws_app, H1, space_after_ws_replace_ws.
    destruct (ends_ws text) eqn:He; [|reflexivity].
    rewrite (ends_ws_empty_or_ends_space text He).
    now rewrite startsWith_space_replace_ws.
  - apply Forall_app. split; [assumption|].
    eapply List.Forall_impl; [|apply replace_ws_units]. cbn. auto.
Qed.

Lemma normal_ws_app_unit text c :
  normal_ws text -> c <> SPACE -> c = TAB \/ c = LF ->
  normal_ws (text ++ [c]).
Proof.
  intros [H1 H2] Hc Hc'. split.
  - rewrite space_after_ws_app, H1. cbn.
    apply N.eqb_neq in Hc. rewrite Hc.
    now rewrite !andb_false_r.
  - apply Forall_app. split; [assumption|].
    constructor; [intros _; auto|constructor].
Qed.

Lemma normal_ws_trim text : normal_ws text -> normal_ws (trim text).
Proof.
  intros [H1 H2]. split; [|now apply Forall_trim].
  destruct (trim_infix text) as (pre & post & E).
  rewrite E, space_after_ws_app in H1. apply orb_false_elim in H1 as [_ H1].
  rewrite space_after_ws_app in H1. apply orb_false_elim in H1 as [H1 _].
  now apply orb_false_elim in H1 as [H1 _].
Qed.

Lemma process_node_normal_ws elem :
  no_pre elem = true ->
  forall p text, p <> Some (js "pre") -> normal_ws text ->
    normal_ws (process_node p elem text).
Proof.
  induction elem as [d|d|n d|ch IH|ch IH|t a ch IH] using Node_children_ind;
    intros Hok p text Hp Hc.
  - rewrite process_node_Text. now apply normal_ws_app_chunk.
  - exact Hc.
  - exact Hc.
  - rewrite process_node_CData.
    apply (process_preserves normal_ws no_pre None ch); [|exact Hok|exact Hc].
    eapply List.Forall_impl; [|exact IH]. cbn. intros c Hc' Hokc q text' -> Hn.
    now apply Hc'.
  - rewrite process_node_Document.
    apply (process_preserves normal_ws no_pre None ch); [|exact Hok|exact Hc].
    eapply List.Forall_impl; [|exact IH]. cbn. intros c Hc' Hokc q text' -> Hn.
    now apply Hc'.
  - unfold no_pre in Hok. rewrite no_tag_Element in Hok.
    apply andb_prop in Hok as [Hpre Hch]. apply negb_true_iff in Hpre.
    assert (Hchildren : forall text', normal_ws text' ->
              normal_ws (process (Some t) ch text')).
    { intros text' Hn.
      apply (process_preserves normal_ws no_pre (Some t) ch);
        [|exact Hch|exact Hn].
      eapply List.Forall_impl; [|exact IH]. cbn.
      intros c Hc' Hokc q text'' -> Hn'.
      apply Hc'; [assumption| |assumption].
      intros [= E]. now apply streq_false in Hpre. }
    assert (HLF : forall text', normal_ws text' -> normal_ws (text' ++ [LF])).
    { intros text' Hn. apply normal_ws_app_unit; [assumption|discriminate|auto]. }
    rewrite process_node_Element.
    destruct (SKIP_TAGS_REGEX t); [exact Hc|].
    destruct (streq t (js "br")); [now apply HLF|].
    destruct (streq t (js "td")).
    { apply normal_ws_app_unit; [now apply Hchildren|discriminate|auto]. }
    cbn zeta.
    set (text1 := if BLOCK_TAGS_REGEX t && negb (empty_or_ends_LF text)
                  then text ++ [LF] else text).
    assert (Hc1 : normal_ws text1).
    { subst text1. destruct (_ && _); [now apply HLF|exact Hc]. }
    specialize (Hchildren text1 Hc1).
    destruct (BLOCK_TAGS_REGEX t && negb (endsWith_LF _));
      [now apply HLF|exact Hchildren].
Qed.

(** When the start nodes hold no [pre] element, the whitespace of the
    result is normalised: no code unit of whitespace is followed by a space
    (so there are no two adjacent spaces, also across node and element
    boundaries), and the only whitespace code units are the space, the tab
    and the line feed. *)
Theorem whitespace_is_normalised (load : jsstring -> CheerioAPI)
  (input : jsstring + CheerioAPI) (dollar : CheerioAPI) :
  parsed load input = Some dollar ->
  forallb no_pre (start_nodes dollar) = true ->
  (forall pre a post,
     htmlToText load input = pre ++ a :: SPACE :: post -> is_space a = false)
  /\ ~ infix [SPACE; SPACE] (htmlToText load input)
  /\ Forall (fun c => is_space c = true -> c = SPACE \/ c = TAB \/ c = LF)
       (htmlToText load input).
Proof.
  intros Hdoc Hok.
  assert (Hn : normal_ws (htmlToText load input)).
  { rewrite (htmlToText_parsed load input dollar Hdoc). apply normal_ws_trim.
    apply (process_preserves normal_ws no_pre None (start_nodes dollar));
      [|exact Hok|exact normal_ws_nil].
    apply Forall_forall. intros c _ Hc q text -> Hn.
    now apply process_node_normal_ws. }
  destruct Hn as [H1 H2].
  assert (Hpair : forall pre a post,
            htmlToText load input = pre ++ a :: SPACE :: post ->
            is_space a = false).
  { intros pre a post E. rewrite E, space_after_ws_app in H1.
    apply orb_false_elim in H1 as [_ H1]. cbn in H1.
    apply orb_false_elim in H1 as [H1 _]. now rewrite andb_true_r in H1. }
  split; [exact Hpair|]. split; [|exact H2].
  intros (pre & post & E). specialize (Hpair pre SPACE post E).
  discriminate Hpair.
Qed.

Lemma whitespace_is_normalised_witness :
  ~ infix [SPACE; SPACE] (htmlToText load_sample (inr spaced_page)).
Proof.
  apply (whitespace_is_normalised load_sample (inr spaced_page) spaced_page).
  - reflexivity.
  - vm_compute. reflexivity.
Defined.

(** ** Block elements stand on lines of their own *)

(** The block set is disjoint from the skip set and holds neither [br]
    nor [td]. *)
Lemma block_tag_is_processed t :
  BLOCK_TAGS_REGEX t = true ->
  SKIP_TAGS_REGEX t = false
  /\ streq t (js "br") = false /\ streq t (js "td") = false.
Proof.
  intros H. unfold BLOCK_TAGS_REGEX in H.
  apply existsb_exists in H as (x & Hin & Hx).
  apply bool_decide_eq_true_1 in Hx. subst x.
  assert (Hskip : SKIP_TAGS_REGEX t = false).
  { unfold SKIP_TAGS_REGEX. cbn in Hin.
    repeat (destruct Hin as [Hin|Hin]; [rewrite <- Hin; reflexivity|]).
    destruct Hin. }
  split; [exact Hskip|].
  split; unfold streq; apply bool_decide_eq_false_2; intros ->;
    vm_compute in Hin;
    repeat (destruct Hin as [Hin|Hin]; [discriminate Hin|]); destruct Hin.
Qed.

(** An element of the block set starts on a fresh line and closes its
    line.  Before its children a line feed is added exactly when the
    accumulator is neither empty nor ends in a line feed; after them a line
    feed is added exactly when they did not leave one at the end.  So the
    children start on an accumulator that is empty or ends in a line feed,
    the element leaves one that ends in a line feed, and the element itself
    never puts a line feed next to another one. *)
Theorem block_element_lines (p : option jsstring) (t : jsstring)
  (a : gmap jsstring jsstring) (ch : list Node) (text : jsstring) :
  BLOCK_TAGS_REGEX t = true ->
  exists sep tail,
    sep = (if empty_or_ends_LF text then [] else [LF])
    /\ tail = (if endsWith_LF (process (Some t) ch (text ++ sep))
               then [] else [LF])
    /\ process_node p (Element t a ch) text
       = process (Some t) ch (text ++ sep) ++ tail
    /\ empty_or_ends_LF (text ++ sep) = true
    /\ endsWith_LF (process_node p (Element t a ch) text) = true.
Proof.
  intros Hblock.
  destruct (block_tag_is_processed t Hblock) as (Hskip & Hbr & Htd).
  rewrite process_node_Element, Hskip, Hbr, Htd, Hblock. cbn [andb]. cbn zeta.
  exists (if empty_or_ends_LF text then [] else [LF]).
  destruct (empty_or_ends_LF text) eqn:He; cbn [negb].
  - rewrite app_nil_r.
    exists (if endsWith_LF (process (Some t) ch text) then [] else [LF]).
    destruct (endsWith_LF (process (Some t) ch text)) eqn:Hl; cbn [negb].
    + rewrite app_nil_r. auto.
    + repeat split; auto. unfold endsWith_LF. now rewrite last_unit_snoc.
  - assert (He' : empty_or_ends_LF (text ++ [LF]) = true).
    { unfold empty_or_ends_LF. now rewrite last_unit_snoc. }
    exists (if endsWith_LF (process (Some t) ch (text ++ [LF]))
            then [] else [LF]).
    destruct (endsWith_LF (process (Some t) ch (text ++ [LF]))) eqn:Hl;
      cbn [negb].
    + rewrite app_nil_r. auto.
    + repeat split; auto. unfold endsWith_LF. now rewrite last_unit_snoc.
Qed.

Lemma block_element_lines_witness :
  process_node None (el "p" [Text (js "x")]) (js "a")
  = js "a" ++ [LF] ++ js "x" ++ [LF].
Proof.
  destruct (block_element_lines None (js "p") ∅ [Text (js "x")] (js "a"))
    as (sep & tail & -> & -> & H & _ & _).
  - reflexivity.
  - etransitivity; [exact H|]. vm_compute. reflexivity.
Defined.

(** * Further properties of the link extractor *)

Lemma filter_Boolean_truthy l : Forall (fun s => truthy s = true) (filter_Boolean l).
Proof.
  unfold filter_Boolean. apply List.Forall_forall. intros s Hs.
  now apply filter_In in Hs.
Qed.

Lemma filter_Boolean_opt_Some l :
  Forall (fun s => truthy s = true) l ->
  filter_Boolean_opt (map Some l) = l.
Proof.
  induction 1 as [|s l Hs _ IH]; [reflexivity|].
  cbn [map filter_Boolean_opt]. now rewrite Hs, IH.
Qed.

Lemma filter_Boolean_opt_length l :
  (length (filter_Boolean_opt l) <= length l)%nat.
Proof.
  induction l as [|[s|] l IH]; cbn [filter_Boolean_opt length]; [lia| |lia].
  destruct (truthy s); cbn [length]; lia.
Qed.

Lemma map_href_length matched :
  (length (map_href matched) <= length matched)%nat.
Proof.
  induction matched as [|e matched IH]; cbn [map_href length]; [lia|].
  destruct (attr [e] (js "href")); cbn [length]; lia.
Qed.

Lemma collected_hrefs_length dollar selector :
  (length (collected_hrefs dollar selector)
   <= length (select dollar selector))%nat.
Proof.
  unfold collected_hrefs, filter_Boolean.
  pose proof (filter_length_le truthy (map_href (select dollar selector))).
  pose proof (map_href_length (select dollar selector)). lia.
Qed.

Lemma array_map_length {A B} (f : A -> Result B) l bs :
  array_map f l = Return bs -> length bs = length l.
Proof.
  revert bs. induction l as [|a l IH]; intros bs.
  - now intros [= <-].
  - rewrite array_map_cons. destruct (f a) as [b|m]; [|discriminate].
    destruct (array_map f l) as [bs'|m]; [|discriminate].
    intros [= <-]. cbn. now rewrite (IH bs').
Qed.

(** With a non-empty [baseUrl] the effective base URL is non-empty too,
    whatever the [base] element and the resolver do, and the call never
    throws. *)
Theorem base_url_prevents_throw
  (tryAbsoluteURL : jsstring -> jsstring -> option jsstring)
  (dollar : CheerioAPI) (selector baseUrl : jsstring) :
  baseUrl <> [] ->
  effective_baseUrl tryAbsoluteURL dollar baseUrl <> []
  /\ exists urls,
       extractUrlsFromCheerio tryAbsoluteURL dollar selector baseUrl
       = Return urls.
Proof.
  intros Hb. apply truthy_true in Hb.
  pose proof (effective_baseUrl_truthy tryAbsoluteURL dollar baseUrl Hb) as He.
  split; [now apply truthy_true|].
  eexists. now apply extract_with_base.
Qed.

Lemma base_url_prevents_throw_witness :
  exists urls,
    extractUrlsFromCheerio url_parser mixed_links (js "a")
      (js "https://example.com/") = Return urls.
Proof.
  apply (base_url_prevents_throw url_parser mixed_links (js "a")
           (js "https://example.com/")).
  discriminate.
Defined.

(** The call throws exactly when the effective base URL is empty and some
    collected href is not absolute. *)
Theorem throw_condition
  (tryAbsoluteURL : jsstring -> jsstring -> option jsstring)
  (dollar : CheerioAPI) (selector baseUrl : jsstring) :
  (exists m,
     extractUrlsFromCheerio tryAbsoluteURL dollar selector baseUrl = Throw m)
  <->
  effective_baseUrl tryAbsoluteURL dollar baseUrl = []
  /\ forallb isHrefAbsolute (collected_hrefs dollar selector) = false.
Proof.
  rewrite extractUrlsFromCheerio_unfold.
  destruct (truthy (effective_baseUrl tryAbsoluteURL dollar baseUrl)) eqn:Hb.
  - rewrite array_map_resolve_with_base by assumption. split.
    + intros (m & H). discriminate H.
    + intros [E _]. rewrite E in Hb. discriminate Hb.
  - apply truthy_false in Hb. rewrite Hb.
    pose proof (array_map_resolve_without_base tryAbsoluteURL
                  (collected_hrefs dollar selector)) as H.
    destruct (array_map _ _) as [urls|m].
    + destruct H as [Hall _]. split.
      * intros (m & Hm). discriminate Hm.
      * intros [_ Hf]. congruence.
    + destruct H as (pre & h & post & E & _ & Hh & _). split.
      * intros _. split; [reflexivity|].
        rewrite E, forallb_app. cbn. rewrite Hh. now rewrite andb_false_r.
      * intros _. now exists m.
Qed.

Lemma throw_condition_witness :
  exists m,
    extractUrlsFromCheerio url_parser mixed_links (js "a") [] = Throw m.
Proof.
  apply (throw_condition url_parser mixed_links (js "a") []).
  split; vm_compute; reflexivity.
Defined.

Lemma filter_Boolean_opt_truthy l :
  Forall (fun s => truthy s = true) (filter_Boolean_opt l).
Proof.
  induction l as [|[s|] l IH]; cbn [filter_Boolean_opt];
    [constructor| |exact IH].
  destruct (truthy s) eqn:Hs; [now constructor|exact IH].
Qed.

(** A returned sequence holds no empty string, and it is no longer than
    the list of matched elements. *)
Theorem returned_urls_are_nonempty
  (tryAbsoluteURL : jsstring -> jsstring -> option jsstring)
  (dollar : CheerioAPI) (selector baseUrl : jsstring) (urls : list jsstring) :
  extractUrlsFromCheerio tryAbsoluteURL dollar selector baseUrl = Return urls ->
  Forall (fun u => u <> []) urls
  /\ (length urls <= length (select dollar selector))%nat.
Proof.
  rewrite extractUrlsFromCheerio_unfold.
  destruct (array_map _ _) as [opts|m] eqn:E; [|discriminate].
  intros [= <-]. split.
  - eapply List.Forall_impl; [|apply filter_Boolean_opt_truthy].
    cbn. intros u. apply truthy_true.
  - pose proof (filter_Boolean_opt_length opts).
    pose proof (array_map_length _ _ _ E).
    pose proof (collected_hrefs_length dollar selector). lia.
Qed.

Lemma returned_urls_are_nonempty_witness :
  Forall (fun u => u <> [])
    [js "https://x.com/"; js "https://example.com/x";
     js "https://example.com/y"]
  /\ (3 <= length (select mixed_links (js "a")))%nat.
Proof.
  apply (returned_urls_are_nonempty url_parser mixed_links (js "a")
           (js "https://example.com/")
           [js "https://x.com/"; js "https://example.com/x";
            js "https://example.com/y"]).
  vm_compute. reflexivity.
Defined.

(** Without an effective base URL the call returns exactly when every
    collected href is absolute, and then it returns the collected hrefs
    themselves, unchanged and in document order; the resolver is not
    consulted. *)
Theorem without_base_hrefs_pass_through
  (tryAbsoluteURL : jsstring -> jsstring -> option jsstring)
  (dollar : CheerioAPI) (selector baseUrl : jsstring) (urls : list jsstring) :
  effective_baseUrl tryAbsoluteURL dollar baseUrl = [] ->
  extractUrlsFromCheerio tryAbsoluteURL dollar selector baseUrl = Return urls
  <->
  forallb isHrefAbsolute (collected_hrefs dollar selector) = true
  /\ urls = collected_hrefs dollar selector.
Proof.
  intros Hb. rewrite extractUrlsFromCheerio_unfold, Hb.
  pose proof (array_map_resolve_without_base tryAbsoluteURL
                (collected_hrefs dollar selector)) as H.
  assert (Hid : filter_Boolean_opt (map Some (collected_hrefs dollar selector))
                = collected_hrefs dollar selector).
  { apply filter_Boolean_opt_Some, filter_Boolean_truthy. }
  destruct (array_map _ _) as [opts|m].
  - destruct H as [Hall ->]. rewrite Hid. split.
    + now intros [= <-].
    + now intros [_ ->].
  - destruct H as (pre & h & post & E & _ & Hh & _). split; [discriminate|].
    intros [Hall _]. rewrite E, forallb_app in Hall. cbn in Hall.
    rewrite Hh, andb_false_r in Hall. discriminate Hall.
Qed.

Lemma without_base_hrefs_pass_through_witness :
  extractUrlsFromCheerio url_parser absolute_links (js "a") []
  = Return [js "mailto:a@b.com"; js "https://x.com"].
Proof.
  apply (without_base_hrefs_pass_through url_parser absolute_links (js "a") []).
  - reflexivity.
  - split; vm_compute; reflexivity.
Defined.

(** Every returned URL stems from a matched element with a non-empty href:
    it is the resolver's answer for that href and the effective base URL,
    or, when there is no effective base URL, the href itself, which is then
    absolute. *)
Theorem returned_url_origin
  (tryAbsoluteURL : jsstring -> jsstring -> option jsstring)
  (dollar : CheerioAPI) (selector baseUrl : jsstring)
  (urls : list jsstring) (u : jsstring) :
  extractUrlsFromCheerio tryAbsoluteURL dollar selector baseUrl = Return urls ->
  In u urls ->
  exists el href,
    In el (select dollar selector)
    /\ attr [el] (js "href") = Some href
    /\ href <> []
    /\ (if truthy (effective_baseUrl tryAbsoluteURL dollar baseUrl)
        then tryAbsoluteURL href
               (effective_baseUrl tryAbsoluteURL dollar baseUrl) = Some u
        else u = href /\ isHrefAbsolute href = true).
Proof.
  intros Hret Hin.
  destruct (truthy (effective_baseUrl tryAbsoluteURL dollar baseUrl)) eqn:Hb.
  - rewrite extract_with_base in Hret by assumption.
    injection Hret as <-.
    apply in_filter_Boolean_opt in Hin as [Hin _].
    apply in_map_iff in Hin as (href & Hu & Hin).
    apply in_collected_hrefs in Hin as (el & Hel & Hattr & Hne).
    now exists el, href.
  - apply truthy_false in Hb.
    rewrite extractUrlsFromCheerio_unfold, Hb in Hret.
    pose proof (array_map_resolve_without_base tryAbsoluteURL
                  (collected_hrefs dollar selector)) as H.
    destruct (array_map _ _) as [opts|m]; [|discriminate].
    destruct H as [Hall ->]. injection Hret as <-.
    rewrite filter_Boolean_opt_Some in Hin by apply filter_Boolean_truthy.
    rewrite forallb_forall in Hall. specialize (Hall u Hin).
    apply in_collected_hrefs in Hin as (el & Hel & Hattr & Hne).
    now exists el, u.
Qed.

Lemma returned_url_origin_witness :
  exists el href,
    In el (select based_link (js "a"))
    /\ attr [el] (js "href") = Some href
    /\ href <> []
    /\ (if truthy (effective_baseUrl url_parser based_link
                     (js "https://example.com/"))
        then url_parser href
               (effective_baseUrl url_parser based_link
                  (js "https://example.com/"))
             = Some (js "https://other.com/x")
        else js "https://other.com/x" = href /\ isHrefAbsolute href = true).
Proof.
  apply (returned_url_origin url_parser based_link (js "a")
           (js "https://example.com/") [js "https://other.com/x"]).
  - vm_compute. reflexivity.
  - left. reflexivity.
Defined.

(** ** The scheme test looks at the part before the first colon only *)

Lemma scheme_tail_no_colon s : ~ In COLON s -> scheme_tail s = false.
Proof.
  induction s as [|c s IH]; [reflexivity|]. intros Hn. cbn [scheme_tail].
  destruct (is_scheme_unit c).
  - apply IH. intros H. apply Hn. now right.
  - apply N.eqb_neq. intros ->. apply Hn. now left.
Qed.

Lemma scheme_tail_upto_colon pre rest rest' :
  ~ In COLON pre ->
  scheme_tail (pre ++ COLON :: rest) = scheme_tail (pre ++ COLON :: rest').
Proof.
  induction pre as [|c pre IH]; intros Hn; [reflexivity|].
  cbn [app scheme_tail]. destruct (is_scheme_unit c).
  - apply IH. intros H. apply Hn. now right.
  - reflexivity.
Qed.

(** An href without a colon is never absolute, and whether an href is
    absolute is decided by what precedes its first colon: the rest (host,
    path, query) is not inspected. *)
Theorem isHrefAbsolute_reads_scheme_only :
  (forall href, ~ In COLON href -> isHrefAbsolute href = false)
  /\ (forall pre rest rest',
        ~ In COLON pre ->
        isHrefAbsolute (pre ++ COLON :: rest)
        = isHrefAbsolute (pre ++ COLON :: rest')).
Proof.
  split.
  - intros [|c s] Hn; [reflexivity|]. cbn [isHrefAbsolute].
    rewrite scheme_tail_no_colon; [apply andb_false_r|].
    intros H. apply Hn. now right.
  - intros [|c pre] rest rest' Hn; [reflexivity|].
    cbn [app isHrefAbsolute]. f_equal. apply scheme_tail_upto_colon.
    intros H. apply Hn. now right.
Qed.

Lemma isHrefAbsolute_reads_scheme_only_witness :
  isHrefAbsolute (js "/path/to?x=1") = false
  /\ isHrefAbsolute (js "tel" ++ COLON :: js "+1 234")
     = isHrefAbsolute (js "tel" ++ COLON :: []).
Proof.
  destruct isHrefAbsolute_reads_scheme_only as [H1 H2]. split.
  - apply H1. vm_compute. intuition discriminate.
  - apply H2. vm_compute. intuition discriminate.
Defined.

(** ** The error identifies the href *)

(** The message of the relative-URL error determines the href it was made
    for: two hrefs with the same message are the same. *)
Theorem relative_url_error_injective (h1 h2 : jsstring) :
  relative_url_error h1 = relative_url_error h2 -> h1 = h2.
Proof.
  unfold relative_url_error. intros H.
  apply app_inv_head in H. now apply app_inv_tail in H.
Qed.

Lemma relative_url_error_injective_witness : js "/x" = js "/x".
Proof.
  apply (relative_url_error_injective (js "/x") (js "/x")). reflexivity.
Defined.
